(** * Block-level copy, stream compaction and range end of Thrust

    A shallow embedding of

    - [thrust/range/end.h]                              (module [Range]),
    - [thrust/detail/backend/cuda/block/copy.h]         (module [Block]),
    - [thrust/detail/backend/cuda/copy_if.inl]          (module [CopyIf]),

    followed by the properties proved about them.

    Conventions.  Machine integers are values of [Z] and every conversion
    to a fixed-width type is written out: [u32] for [unsigned int], [usize]
    for [size_t] (64 bits, as on every 64-bit CUDA target).  Raw memory is a
    total function from byte addresses to bytes.  A loop of the source is a
    [Fixpoint] on a fuel argument that returns [None] when the fuel runs out.
    The lanes of a group are run one after the other in an order that is an
    argument of the model. *)

From stdpp Require Import base numbers option list.
From Stdlib Require Import ZArith Lia Init.Byte.

Local Open Scope Z_scope.

(* ===================================================================== *)
(** * Part I: the programs                                                *)
(* ===================================================================== *)

(** ** Machine integers *)

(** [unsigned int] *)
Definition u32 (x : Z) : Z := x mod 2 ^ 32.

(** [size_t] *)
Definition usize (x : Z) : Z := x mod 2 ^ 64.

(** ** thrust/range/end.h *)

Module Range.

(** A pointer [T*] into an array, counted in elements from the start of
    the address space of [T] objects. *)
Definition pointer := Z.

(** [p + k] of the language. *)
Definition ptr_add (p : pointer) (k : Z) : pointer := p + k.

(** A built-in array [T a[sz]]: the pointer its name decays to and its
    elements; [sz] is the number of elements. *)
Record array (T : Type) := Array { decay : pointer; elems : list T }.
Arguments Array {T} _ _.
Arguments decay {T} _.
Arguments elems {T} _.

Definition extent {T} (a : array T) : Z := Z.of_nat (length (elems a)).

(** The address of [a[i]]. *)
Definition address_of {T} (a : array T) (i : Z) : pointer := ptr_add (decay a) i.

(** A range type with an [end()] member, [range_iterator<Range>::type]
    being the type of its iterators. *)
Class HasEnd (R I : Type) := member_end : R -> I.

(** [end(Range &r)], the default. *)
Definition end_ {R I} `{HasEnd R I} (r : R) : I := member_end r.

(** [end(T (&a)[sz])], arrays. *)
Definition end_array {T} (a : array T) : pointer := ptr_add (decay a) (extent a).

(** [end(const T (&a)[sz])], const arrays. *)
Definition end_const_array {T} (a : array T) : pointer := ptr_add (decay a) (extent a).

(** A range given by two iterators, as an instance for the examples. *)
Record iterator_range := IteratorRange { ir_begin : pointer; ir_end : pointer }.

#[export] Instance iterator_range_has_end : HasEnd iterator_range pointer := ir_end.

End Range.

(** ** thrust/detail/backend/cuda/block/copy.h *)

Module Block.

(** Raw memory, by byte address. *)
Definition memory := Z -> byte.

(** What a lane sees of its group: [context.thread_index()],
    [context.block_dimension()] and [context.block_index()]. *)
Record context := Context {
  thread_index : Z;
  block_dimension : Z;
  block_index : Z
}.

(** [sizeof(int2)] and [sizeof(uint2)]: two [int]s, or a [long long] when
    the device compiler is not nvcc. *)
Definition sizeof_int2 : Z := 8.
Definition sizeof_uint2 : Z := 8.

(** [dst[0] = src[0]] for an element type of [W] bytes at the byte
    addresses [d] and [s]: the [W] bytes are loaded, then stored. *)
Definition copy_elem (W d s : Z) (mem : memory) : memory :=
  fun a => if (d <=? a) && (a <? d + W) then mem (s + (a - d)) else mem a.

(** [quotient_and_remainder(n, d)] at [Size = size_t]. *)
Definition quotient_and_remainder (n d : Z) : Z * Z :=
  let quotient := n / d in
  let remainder := usize (n - usize (d * quotient)) in
  (quotient, remainder).

(** The loop
    [for(unsigned int i = ...; i < bound; i += block_dimension) dst[i] = src[i];]
    from the value [i] of the counter on, for elements of [W] bytes.  The
    counter is an [unsigned int] and wraps. *)
Fixpoint strided_loop (W : Z) (fuel : nat) (i bound stride dst src : Z)
    (mem : memory) : option memory :=
  match fuel with
  | O => None
  | S fuel' =>
      if i <? bound then
        strided_loop W fuel' (u32 (i + stride)) bound stride dst src
          (copy_elem W (dst + W * i) (src + W * i) mem)
      else Some mem
  end.

(** [aligned_copy(context, dst, src, num_elements)] at an element type of
    [W] bytes; [num_elements] is an [unsigned int] parameter. *)
Definition aligned_copy (W : Z) (fuel : nat) (ctx : context) (dst src : Z)
    (num_elements : Z) (mem : memory) : option memory :=
  let num_elements := u32 num_elements in
  strided_loop W fuel (u32 (thread_index ctx)) num_elements (block_dimension ctx)
    dst src mem.

(** [trivial_copy(context, destination_, source_, num_bytes)];
    [num_bytes] is a [size_t]. *)
Definition trivial_copy (fuel : nat) (ctx : context) (destination source : Z)
    (num_bytes : Z) (mem : memory) : option memory :=
  if negb (usize destination mod sizeof_uint2 =? 0)
     || negb (usize source mod sizeof_uint2 =? 0)
  then
    (* the bound of this loop is the size_t itself *)
    strided_loop 1 fuel (u32 (thread_index ctx)) num_bytes (block_dimension ctx)
      destination source mem
  else
    let num_wide_elements_and_remainder_bytes :=
      quotient_and_remainder num_bytes sizeof_int2 in
    mem1 ← aligned_copy sizeof_int2 fuel ctx destination source
              (fst num_wide_elements_and_remainder_bytes) mem;
    let remainder_first :=
      source + usize (sizeof_int2 * fst num_wide_elements_and_remainder_bytes) in
    let remainder_result :=
      destination + usize (sizeof_int2 * fst num_wide_elements_and_remainder_bytes) in
    aligned_copy 1 fuel ctx remainder_result remainder_first
      (snd num_wide_elements_and_remainder_bytes) mem1.

(** Random access iterators over contiguous memory of elements of
    [sizeofT] bytes: the byte address of the element they point to. *)
Definition it_add (sizeofT : Z) (it k : Z) : Z := it + sizeofT * k.
Definition it_diff (sizeofT : Z) (last first : Z) : Z := (last - first) / sizeofT.

(** [detail::dispatch::copy(context, first, last, result, true_type)] *)
Definition copy_true_type (sizeofT : Z) (fuel : nat) (ctx : context)
    (first last result : Z) (mem : memory) : option (memory * Z) :=
  let src := first in
  let dst := result in
  let n := usize (it_diff sizeofT last first) in
  mem' ← trivial_copy fuel ctx dst src (usize (n * sizeofT)) mem;
  Some (mem', it_add sizeofT result n).

(** The loop of the generic copy:
    [for(; first < last; first += block_dimension, result += block_dimension)
       dereference(result) = dereference(first);] *)
Fixpoint copy_false_type_loop (sizeofT : Z) (fuel : nat) (stride : Z)
    (first last result : Z) (mem : memory) : option memory :=
  match fuel with
  | O => None
  | S fuel' =>
      if first <? last then
        copy_false_type_loop sizeofT fuel' stride
          (it_add sizeofT first stride) last (it_add sizeofT result stride)
          (copy_elem sizeofT result first mem)
      else Some mem
  end.

(** [detail::dispatch::copy(context, first, last, result, false_type)] *)
Definition copy_false_type (sizeofT : Z) (fuel : nat) (ctx : context)
    (first last result : Z) (mem : memory) : option (memory * Z) :=
  let end_of_output := it_add sizeofT result (it_diff sizeofT last first) in
  let first := it_add sizeofT first (thread_index ctx) in
  let result := it_add sizeofT result (thread_index ctx) in
  mem' ← copy_false_type_loop sizeofT fuel (block_dimension ctx) first last result mem;
  Some (mem', end_of_output).

(** [block::copy(context, first, last, result)]: [cuda_arch] is
    [__CUDA_ARCH__] and [is_trivial_copy] the value of
    [thrust::detail::dispatch::is_trivial_copy<...>::type]. *)
Definition copy (cuda_arch : Z) (is_trivial_copy : bool) (sizeofT : Z) (fuel : nat)
    (ctx : context) (first last result : Z) (mem : memory) : option (memory * Z) :=
  if cuda_arch <? 200 then copy_false_type sizeofT fuel ctx first last result mem
  else if is_trivial_copy then copy_true_type sizeofT fuel ctx first last result mem
  else copy_false_type sizeofT fuel ctx first last result mem.

(** The group: every lane of [lanes] runs [body] on the shared memory, in
    the order of the list; the values the lanes return are collected. *)
Fixpoint run_group {R} (body : context -> memory -> option (memory * R))
    (bdim bidx : Z) (lanes : list nat) (mem : memory) : option (memory * list R) :=
  match lanes with
  | [] => Some (mem, [])
  | t :: lanes' =>
      '(mem1, r) ← body (Context (Z.of_nat t) bdim bidx) mem;
      '(mem2, rs) ← run_group body bdim bidx lanes' mem1;
      Some (mem2, r :: rs)
  end.

(** A lane that returns nothing. *)
Definition returning_unit (f : memory -> option memory) (mem : memory) : option (memory * unit) :=
  mem' ← f mem; Some (mem', tt).

(** The lanes of a group of [bdim] lanes, in some order. *)
Definition schedule_of (bdim : nat) (lanes : list nat) : Prop :=
  lanes ≡ₚ seq 0 bdim.

(** [trivial_copy] called by the lanes of a group. *)
Definition group_trivial_copy (fuel : nat) (bdim : nat) (lanes : list nat)
    (destination source num_bytes : Z) (mem : memory) : option (memory * list unit) :=
  run_group (fun ctx => returning_unit (trivial_copy fuel ctx destination source num_bytes))
    (Z.of_nat bdim) 0 lanes mem.

(** [block::copy] called by the lanes of a group. *)
Definition group_copy (cuda_arch : Z) (is_trivial_copy : bool) (sizeofT : Z)
    (fuel : nat) (bdim : nat) (lanes : list nat) (first last result : Z)
    (mem : memory) : option (memory * list Z) :=
  run_group (fun ctx => copy cuda_arch is_trivial_copy sizeofT fuel ctx first last result)
    (Z.of_nat bdim) 0 lanes mem.

End Block.

(** ** thrust/detail/backend/cuda/copy_if.inl *)

Module CopyIf.

(** [thrust::detail::backend::index_range<IndexType>].  [IndexType] is the
    difference type of the input iterator; it is wide enough for every
    index of the input and is modelled by [Z]. *)
Record index_range := IndexRange { range_begin : Z; range_end : Z }.

(** The interface of a [Decomposition]: [size()] and [operator[]]. *)
Record decomposition := Decomposition {
  decomp_size : nat;
  decomp_at : nat -> index_range
}.

(** [thrust::plus<unsigned int>] *)
Definition plus_u32 (a b : Z) : Z := u32 (a + b).

(** [predicate_to_integral<Predicate,IndexType>]: an integral value in
    {0,1}. *)
Definition predicate_to_integral {S} (pred : S -> bool) (x : S) : Z :=
  if pred x then 1 else 0.

Fixpoint scan_from {A} (op : A -> A -> A) (acc : A) (l : list A) : list A :=
  match l with
  | [] => []
  | x :: l' => let acc' := op acc x in acc' :: scan_from op acc' l'
  end.

(** Modelled from the spec: [thrust::inclusive_scan] and
    [cuda::block::inplace_inclusive_scan] are not among the sources; the
    result holds the running totals under the operator, the current
    element included. *)
Definition inclusive_scan {A} (op : A -> A -> A) (l : list A) : list A :=
  match l with
  | [] => []
  | x :: l' => x :: scan_from op x l'
  end.

(** Modelled from the spec: [reduce_intervals] is not among the sources;
    it produces one summed count per interval of the decomposition. *)
Definition reduce_intervals (input : Z -> Z) (decomp : decomposition) : list Z :=
  map (fun g =>
         let r := decomp_at decomp g in
         foldl Z.add 0 (map input (seqZ (range_begin r) (range_end r - range_begin r))))
      (seq 0 (decomp_size decomp)).

(** What the launch leaves open: the order in which the groups run, the
    order in which the lanes of a group reach each step between two
    barriers, and what the shared array of a group holds when the group
    starts. *)
Record schedule := Schedule {
  block_order : list nat;
  lane_order : nat -> list nat;
  shared_init : nat -> list Z
}.

(** Modelled from the spec: [launch_closure] is not among the sources; it
    executes the closure once per group and returns when every group has
    finished. *)
Fixpoint launch_closure {M} (closure : nat -> M -> option M) (blocks : list nat)
    (mem : M) : option M :=
  match blocks with
  | [] => Some mem
  | b :: blocks' => mem' ← closure b mem; launch_closure closure blocks' mem'
  end.

Section Closure.
Context {T : Type}.

(** Output memory, by position of the output iterator. *)
Definition out_memory := Z -> T.

Definition store (mem : out_memory) (p : Z) (v : T) : out_memory :=
  fun q => if q =? p then v else mem q.

(** [Context::ThreadsPerBlock::value] *)
Variable CTA_SIZE : nat.

(** The members of [copy_if_intervals_closure].  The input and the
    stencil are read only; [input_mem] and [stencil_mem] give what
    dereferencing an iterator at a position yields. *)
Variable input_mem : Z -> T.
Variable stencil_mem : Z -> Z.
Variables (input stencil : Z) (offsets : list Z) (decomp : decomposition) (output : Z).

(** The state of a group between two chunks: the variables [base] and
    [output] (equal in all lanes), the shared array and the output
    memory.  The iterators [input] and [stencil] of lane [t] point at
    position [base + t]. *)
Record block_state := BlockState {
  base : Z;
  out : Z;
  sdata : list Z;
  mem : out_memory
}.

(** [sdata[context.thread_index()] = predicate = ...] in every lane. *)
Definition read_data (lanes : list nat) (predicate : nat -> Z) (sd : list Z) : list Z :=
  foldl (fun sd t => <[t := predicate t]> sd) sd lanes.

(** [if (predicate) { temp2 = output + (sdata[thread_index] - 1);
                      dereference(temp2) = dereference(input); }]
    in one lane. *)
Definition write_lane (predicate : nat -> Z) (sd : list Z) (b o : Z)
    (m : out_memory) (t : nat) : out_memory :=
  if predicate t =? 0 then m
  else
    let temp2 := o + u32 (nth t sd 0 - 1) in
    store m temp2 (input_mem (input + (b + Z.of_nat t))).

Definition write_data (lanes : list nat) (predicate : nat -> Z) (sd : list Z)
    (b o : Z) (m : out_memory) : out_memory :=
  foldl (write_lane predicate sd b o) m lanes.

(** The value of [predicate] in lane [t] of a full block. *)
Definition full_predicate (b : Z) (t : nat) : Z :=
  u32 (stencil_mem (stencil + (b + Z.of_nat t))).

(** The value of [predicate] in lane [t] of the partially full block. *)
Definition partial_predicate (b rend : Z) (t : nat) : Z :=
  if b + Z.of_nat t <? rend then u32 (stencil_mem (stencil + (b + Z.of_nat t)))
  else 0.

(** [while(base + CTA_SIZE <= range.end()) { ... }] *)
Fixpoint full_blocks (fuel : nat) (lanes : list nat) (rend : Z) (st : block_state)
    : option block_state :=
  match fuel with
  | O => None
  | S fuel' =>
      if base st + Z.of_nat CTA_SIZE <=? rend then
        let predicate := full_predicate (base st) in
        let sd := read_data lanes predicate (sdata st) in
        let sd := inclusive_scan plus_u32 sd in
        let m := write_data lanes predicate sd (base st) (out st) (mem st) in
        full_blocks fuel' lanes rend
          {| base := base st + Z.of_nat CTA_SIZE;
             out := out st + nth (CTA_SIZE - 1) sd 0;
             sdata := sd;
             mem := m |}
      else Some st
  end.

(** [if (base < range.end()) { ... }] *)
Definition partial_block (lanes : list nat) (rend : Z) (st : block_state) : block_state :=
  if base st <? rend then
    let predicate := partial_predicate (base st) rend in
    let sd := read_data lanes predicate (sdata st) in
    let sd := inclusive_scan plus_u32 sd in
    let m := write_data lanes predicate sd (base st) (out st) (mem st) in
    {| base := base st; out := out st; sdata := sd; mem := m |}
  else st.

(** The output position a group starts at: [output], advanced by
    [offsets[block_index - 1]] unless [block_index] is 0. *)
Definition block_output (bidx : nat) : Z :=
  if negb (bidx =? 0)%nat then
    let temp := nth (bidx - 1) offsets 0 in
    output + temp
  else output.

(** [copy_if_intervals_closure::operator()] for the group [bidx]. *)
Definition closure (fuel : nat) (sched : schedule) (bidx : nat) (m : out_memory)
    : option out_memory :=
  let range := decomp_at decomp bidx in
  let st := {| base := range_begin range;
               out := block_output bidx;
               sdata := shared_init sched bidx;
               mem := m |} in
  st ← full_blocks fuel (lane_order sched bidx) (range_end range) st;
  Some (mem (partial_block (lane_order sched bidx) (range_end range) st)).

End Closure.

(** [const unsigned int ThreadsPerBlock = 256;] *)
Definition ThreadsPerBlock : nat := 256.

(** [copy_if(tag, first, last, stencil, output, pred)].  The first
    argument is [default_decomposition], which is not among the sources;
    [input_mem] and [stencil_mem] are the sequences behind the input and
    stencil iterators. *)
Definition copy_if {T S} (default_decomposition : Z -> decomposition)
    (fuel : nat) (sched : schedule)
    (input_mem : Z -> T) (stencil_mem : Z -> S)
    (first last stencil output : Z) (pred : S -> bool) (m : out_memory (T:=T))
    : option (out_memory (T:=T) * Z) :=
  if first =? last then Some (m, output)
  else
    let decomp := default_decomposition (last - first) in
    let predicate_stencil := fun p => predicate_to_integral pred (stencil_mem p) in
    let block_results :=
      reduce_intervals (fun i => predicate_stencil (stencil + i)) decomp in
    let block_results := inclusive_scan Z.add block_results in
    m' ← launch_closure
           (closure ThreadsPerBlock input_mem predicate_stencil first stencil
              block_results decomp output fuel sched)
           (block_order sched) m;
    Some (m', output + nth (decomp_size decomp - 1) block_results 0).

End CopyIf.

(* ===================================================================== *)
(** * Part II: specifications                                             *)
(* ===================================================================== *)

Module BlockSpec.
Import Block.

(** The two byte ranges of [n] bytes do not overlap. *)
Definition disjoint_ranges (dst src n : Z) : Prop :=
  dst + n <= src \/ src + n <= dst.

(** The destination holds the [n] source bytes of [mem0], and nothing
    else has changed. *)
Definition copied (mem0 mem' : memory) (dst src n : Z) : Prop :=
  (forall k, 0 <= k < n -> mem' (dst + k) = mem0 (src + k)) /\
  (forall a, ~ (dst <= a < dst + n) -> mem' a = mem0 a).

(** Every byte is as it was or holds its source byte. *)
Definition safe (mem0 m : memory) (dst src n : Z) : Prop :=
  forall a, m a = mem0 a \/ (dst <= a < dst + n /\ m a = mem0 (src + (a - dst))).

(** Byte [k] of the destination has arrived. *)
Definition arrived (mem0 m : memory) (dst src : Z) (k : Z) : Prop :=
  m (dst + k) = mem0 (src + k).

(** The lane that byte [k] of a copy of [n] bytes falls to: in the wide
    copy the lane of its wide element, in the remainder and in the
    byte-wise copy the lane of the byte. *)
Definition lane_of_byte (bdim dst src n k : Z) : Z :=
  if negb (usize dst mod sizeof_uint2 =? 0) || negb (usize src mod sizeof_uint2 =? 0)
  then k mod bdim
  else
    let q := n / sizeof_int2 in
    if k <? sizeof_int2 * q then (k / sizeof_int2) mod bdim
    else (k - sizeof_int2 * q) mod bdim.

(** The memory with byte 1 everywhere below [limit] and byte 0 from
    [limit] on. *)
Definition two_tone (limit : Z) : memory :=
  fun a => if a <? limit then x01 else x00.

(** A copy of 32 GiB: [huge] bytes, that is [huge_count] wide elements,
    from address 0 to address [far]; both addresses are aligned. *)
Definition huge : Z := 2 ^ 35.
Definition huge_count : Z := 2 ^ 32.
Definition far : Z := 2 ^ 36.

End BlockSpec.

Module CopyIfSpec.
Import CopyIf.

Fixpoint sumZ (l : list Z) : Z :=
  match l with
  | [] => 0
  | x :: l' => x + sumZ l'
  end.

Section Spec.
Context {T : Type}.

(** [flag i]: the integral value of the predicate at position [i] of
    the stencil; [elem i]: the input element at position [i]. *)
Variable flag : Z -> Z.
Variable elem : Z -> T.
Variable output : Z.

(** The positions of [lo, hi) whose flag is set, in order, and their
    number. *)
Definition selected (lo hi : Z) : list Z :=
  filter (fun i => flag i <> 0) (seqZ lo (hi - lo)).

Definition count (lo hi : Z) : Z := Z.of_nat (length (selected lo hi)).

(** The subsequence of the first [n] input elements whose flag is set. *)
Definition compacted (n : Z) : list T := map elem (selected 0 n).

(** [m'] is [m] with the compacted input written from [output] on. *)
Definition compacted_into (n : Z) (m m' : out_memory (T:=T)) : Prop :=
  (forall j x, compacted n !! j = Some x -> m' (output + Z.of_nat j) = x) /\
  (forall p, ~ (output <= p < output + count 0 n) -> m' p = m p).

(** [m'] is [m] after the selected elements among the positions [P]
    have been written, each to its place in the output. *)
Definition scattered (P : Z -> Prop) (m m' : out_memory (T:=T)) : Prop :=
  (forall i, P i -> flag i <> 0 -> m' (output + count 0 i) = elem i) /\
  (forall p, (forall i, P i -> flag i <> 0 -> p <> output + count 0 i) -> m' p = m p).
End Spec.

(** The positions of the first [n] whose stencil element satisfies the
    predicate, in order. *)
Definition kept {S} (pred : S -> bool) (stencil_mem : Z -> S) (stencil n : Z) : list Z :=
  filter (fun i => pred (stencil_mem (stencil + i)) = true) (seqZ 0 n).

(** The positions of [lo, hi) whose stencil element satisfies the
    predicate, in order. *)
Definition kept_in {S} (pred : S -> bool) (stencil_mem : Z -> S) (stencil lo hi : Z)
    : list Z :=
  filter (fun i => pred (stencil_mem (stencil + i)) = true) (seqZ lo (hi - lo)).

(** The memory [m'] holds the list [l] from position [output] on. *)
Definition holds_from {T} (m' : out_memory (T:=T)) (output : Z) (l : list T) : Prop :=
  forall j x, l !! j = Some x -> m' (output + Z.of_nat j) = x.

(** The memories [m] and [m'] agree outside [lo, hi). *)
Definition unchanged_outside {T} (m m' : out_memory (T:=T)) (lo hi : Z) : Prop :=
  forall p, ~ (lo <= p < hi) -> m' p = m p.

(** The flags a chunk that starts at [b] stores for an interval that ends
    at [rend]: the flag of the position inside the interval, 0 outside. *)
Definition chunk_flags (lanes : nat) (flag : Z -> Z) (b rend : Z) (g : nat -> Z) : Prop :=
  forall t, (t < lanes)%nat ->
    g t = if b + Z.of_nat t <? rend then flag (b + Z.of_nat t) else 0.

(** Modelled from the spec: [default_decomposition] and the decomposition
    it returns are not among the sources.  A decomposition of a domain of
    [n] indices is a positive number of intervals, indexed from 0, that are
    contiguous, in order, disjoint and cover [0, n). *)
Definition valid_decomposition (n : Z) (d : decomposition) : Prop :=
  (0 < decomp_size d)%nat /\
  range_begin (decomp_at d 0) = 0 /\
  range_end (decomp_at d (decomp_size d - 1)) = n /\
  (forall g, (g < decomp_size d)%nat ->
             range_begin (decomp_at d g) <= range_end (decomp_at d g)) /\
  (forall g, (S g < decomp_size d)%nat ->
             range_end (decomp_at d g) = range_begin (decomp_at d (S g))).

(** Every group runs once, every lane of a group takes part in every
    step, and the shared array of a group has one slot per lane. *)
Definition valid_schedule (groups lanes : nat) (s : schedule) : Prop :=
  block_order s ≡ₚ seq 0 groups /\
  (forall b, lane_order s b ≡ₚ seq 0 lanes) /\
  (forall b, length (shared_init s b) = lanes).

(** The decomposition of [0, n) into intervals of [width] elements, the
    last one shorter; used in the examples. *)
Definition chunks_of (width : Z) (n : Z) : decomposition :=
  {| decomp_size := Z.to_nat ((n + width - 1) / width);
     decomp_at := fun g =>
       {| range_begin := Z.min n (width * Z.of_nat g);
          range_end := Z.min n (width * Z.of_nat g + width) |} |}.

(** The schedule that runs the groups and the lanes backwards, on shared
    arrays filled with [junk]. *)
Definition backwards (groups lanes : nat) (junk : Z) : schedule :=
  {| block_order := rev (seq 0 groups);
     lane_order := fun _ => rev (seq 0 lanes);
     shared_init := fun _ => replicate lanes junk |}.

(** The schedule that runs the groups and the lanes in order, on shared
    arrays filled with zeros. *)
Definition forwards (groups lanes : nat) : schedule :=
  {| block_order := seq 0 groups;
     lane_order := fun _ => seq 0 lanes;
     shared_init := fun _ => replicate lanes 0 |}.

(** The example of an input of seven elements of which four are kept. *)
Definition example_input : Z -> Z := fun p => nth (Z.to_nat p) [3; 0; 5; 0; 7; 0; 2] 0.
Definition example_stencil : Z -> Z := fun p => nth (Z.to_nat p) [1; 0; 1; 0; 1; 0; 1] 1.
Definition nonzero (x : Z) : bool := negb (x =? 0).
Definition blank : out_memory (T:=Z) := fun _ => -1.

(** A stencil that is false up to the last element of an input of
    [ThreadsPerBlock + 1] elements and true from there on, also beyond the
    end of the input. *)
Definition late_stencil : Z -> Z := fun p => if p <? Z.of_nat ThreadsPerBlock then 0 else 1.

End CopyIfSpec.

(* ===================================================================== *)
(** * Part III: properties                                                *)
(* ===================================================================== *)

(** ** Machine integers *)

Lemma u32_small x : 0 <= x < 2 ^ 32 -> u32 x = x.
Proof. intros H. unfold u32. apply Z.mod_small. exact H. Qed.

Lemma usize_small x : 0 <= x < 2 ^ 64 -> usize x = x.
Proof. intros H. unfold usize. apply Z.mod_small. exact H. Qed.

Ltac case_cmp :=
  repeat match goal with
  | |- context [ (?a <=? ?b) ] => destruct (Z.leb_spec a b)
  | |- context [ (?a <? ?b) ] => destruct (Z.ltb_spec a b)
  | |- context [ (?a =? ?b) ] => destruct (Z.eqb_spec a b)
  end; simpl.

(** ** Block-level copy *)

Section BlockCopyFacts.
Import Block BlockSpec.

Lemma quotient_and_remainder_spec n d :
  0 <= n < 2 ^ 64 -> 0 < d ->
  quotient_and_remainder n d = (n / d, n mod d).
Proof.
  intros Hn Hd. unfold quotient_and_remainder. f_equal.
  assert (Hq : 0 <= d * (n / d) <= n).
  { split; [apply Z.mul_nonneg_nonneg; [lia | apply Z.div_pos; lia] |].
    apply Z.mul_div_le. lia. }
  rewrite (usize_small (d * (n / d))) by lia.
  rewrite usize_small by lia.
  rewrite Z.mod_eq by lia. reflexivity.
Qed.

Variables (mem0 : memory) (dst src n : Z).
Hypothesis Hdisj : disjoint_ranges dst src n.

(** Copying one element that lies inside the two ranges keeps the
    invariant, keeps what has arrived and makes its bytes arrive. *)
Lemma copy_elem_safe W off m :
  0 <= off -> 0 <= W -> off + W <= n ->
  safe mem0 m dst src n ->
  safe mem0 (copy_elem W (dst + off) (src + off) m) dst src n.
Proof.
  intros Hoff HW Hin Hs a. unfold copy_elem. case_cmp; try apply Hs.
  right. split; [lia |].
  destruct (Hs (src + off + (a - (dst + off)))) as [E | [Hr _]].
  - rewrite E. f_equal. lia.
  - unfold disjoint_ranges in Hdisj. lia.
Qed.

Lemma copy_elem_keeps W off m k :
  0 <= off -> 0 <= W -> off + W <= n ->
  safe mem0 m dst src n ->
  arrived mem0 m dst src k ->
  arrived mem0 (copy_elem W (dst + off) (src + off) m) dst src k.
Proof.
  intros Hoff HW Hin Hs Hk. unfold arrived, copy_elem in *. case_cmp; try exact Hk.
  destruct (Hs (src + off + (dst + k - (dst + off)))) as [E | [Hr _]].
  - rewrite E. f_equal. lia.
  - unfold disjoint_ranges in Hdisj. lia.
Qed.

Lemma copy_elem_arrives W off m b :
  0 <= off -> off + W <= n -> 0 <= b < W ->
  safe mem0 m dst src n ->
  arrived mem0 (copy_elem W (dst + off) (src + off) m) dst src (off + b).
Proof.
  intros Hoff Hin Hb Hs. unfold arrived, copy_elem. case_cmp; try lia.
  destruct (Hs (src + off + (dst + (off + b) - (dst + off)))) as [E | [Hr _]].
  - rewrite E. f_equal. lia.
  - unfold disjoint_ranges in Hdisj. lia.
Qed.

(** The strided loop when the counter cannot wrap: it ends, and the
    elements [i], [i + stride], ... below the bound have arrived. *)
Lemma strided_loop_spec W stride bound off0 :
  0 < W -> 0 < stride -> bound + stride <= 2 ^ 32 ->
  0 <= off0 -> off0 + W * bound <= n ->
  forall fuel i m,
    0 <= i -> (Z.to_nat (bound - i) < fuel)%nat ->
    safe mem0 m dst src n ->
    exists m',
      strided_loop W fuel i bound stride (dst + off0) (src + off0) m = Some m' /\
      safe mem0 m' dst src n /\
      (forall k, arrived mem0 m dst src k -> arrived mem0 m' dst src k) /\
      (forall j b, i <= j < bound -> (j - i) mod stride = 0 -> 0 <= b < W ->
                   arrived mem0 m' dst src (off0 + W * j + b)).
Proof.
  intros HW Hst Hwrap Hoff0 Hin.
  induction fuel as [| fuel IH]; intros i m Hi Hfuel Hs; [lia |].
  simpl. destruct (Z.ltb_spec i bound) as [Hlt | Hge].
  - rewrite u32_small by lia.
    replace (dst + off0 + W * i) with (dst + (off0 + W * i)) by lia.
    replace (src + off0 + W * i) with (src + (off0 + W * i)) by lia.
    assert (Hfit : off0 + W * i + W <= n) by nia.
    assert (Hpos : 0 <= off0 + W * i) by nia.
    destruct (IH (i + stride) (copy_elem W (dst + (off0 + W * i)) (src + (off0 + W * i)) m))
      as (m' & Hrun & Hs' & Hkeep & Hcov).
    + lia.
    + lia.
    + apply copy_elem_safe; auto; lia.
    + exists m'. split; [exact Hrun |]. split; [exact Hs' |]. split.
      * intros k Hk. apply Hkeep. apply copy_elem_keeps; auto; lia.
      * intros j b Hj Hmod Hb.
        destruct (Z.eq_dec j i) as [-> | Hne].
        -- apply Hkeep. apply copy_elem_arrives; auto.
        -- apply Hcov; [| | exact Hb].
           ++ apply Z.mod_divide in Hmod; [| lia]. destruct Hmod as [c Hc].
              assert (1 <= c) by nia. nia.
           ++ replace (j - (i + stride)) with (j - i + (-1) * stride) by lia.
              rewrite Z.mod_add by lia. exact Hmod.
  - exists m. split; [reflexivity |]. split; [exact Hs |]. split; [auto |].
    intros j b Hj. lia.
Qed.

(** One lane of [trivial_copy] when no counter can wrap. *)
Lemma trivial_copy_lane fuel ctx m :
  0 <= n -> n + block_dimension ctx <= 2 ^ 32 ->
  0 <= thread_index ctx < block_dimension ctx ->
  (Z.to_nat n < fuel)%nat ->
  safe mem0 m dst src n ->
  exists m',
    trivial_copy fuel ctx dst src n m = Some m' /\
    safe mem0 m' dst src n /\
    (forall k, arrived mem0 m dst src k -> arrived mem0 m' dst src k) /\
    (forall k, 0 <= k < n ->
               lane_of_byte (block_dimension ctx) dst src n k = thread_index ctx ->
               arrived mem0 m' dst src k).
Proof.
  intros Hn Hwrap Htid Hfuel Hs.
  set (tid := thread_index ctx) in *. set (bdim := block_dimension ctx) in *.
  unfold trivial_copy, lane_of_byte. fold tid bdim.
  rewrite (u32_small tid) by lia.
  destruct (negb (usize dst mod sizeof_uint2 =? 0) || negb (usize src mod sizeof_uint2 =? 0)).
  - destruct (strided_loop_spec 1 bdim n 0 ltac:(lia) ltac:(lia) ltac:(lia) ltac:(lia)
                ltac:(lia) fuel tid m ltac:(lia) ltac:(lia) Hs)
      as (m' & Hrun & Hs' & Hkeep & Hcov).
    rewrite !Z.add_0_r in Hrun. exists m'. repeat split; auto.
    intros k Hk Hlane.
    replace k with (0 + 1 * k + 0) by lia. apply Hcov; [| | lia].
    + pose proof (Z.mod_pos_bound k bdim ltac:(lia)).
      pose proof (Z.mod_le k bdim ltac:(lia) ltac:(lia)). lia.
    + rewrite <- Hlane. rewrite Zminus_mod_idemp_r. rewrite Z.sub_diag. apply Z.mod_0_l. lia.
  - rewrite quotient_and_remainder_spec by (unfold sizeof_int2; lia).
    unfold sizeof_int2 in *. simpl fst. simpl snd. unfold aligned_copy. fold tid bdim.
    assert (Hq : 0 <= n / 8 <= n).
    { split; [apply Z.div_pos; lia |]. apply Z.div_le_upper_bound; lia. }
    assert (Hr : 0 <= n mod 8 < 8) by (apply Z.mod_pos_bound; lia).
    assert (Hqr : n = 8 * (n / 8) + n mod 8) by (apply Z.div_mod; lia).
    rewrite (u32_small tid) by lia.
    rewrite (u32_small (n / 8)) by lia.
    rewrite (u32_small (n mod 8)) by lia.
    rewrite (usize_small (8 * (n / 8))) by lia.
    destruct (strided_loop_spec 8 bdim (n / 8) 0 ltac:(lia) ltac:(lia) ltac:(lia) ltac:(lia)
                ltac:(lia) fuel tid m ltac:(lia) ltac:(lia) Hs)
      as (m1 & Hrun1 & Hs1 & Hkeep1 & Hcov1).
    rewrite !Z.add_0_r in Hrun1. rewrite Hrun1. simpl.
    destruct (strided_loop_spec 1 bdim (n mod 8) (8 * (n / 8)) ltac:(lia) ltac:(lia)
                ltac:(lia) ltac:(lia) ltac:(lia) fuel tid m1 ltac:(lia) ltac:(lia) Hs1)
      as (m2 & Hrun2 & Hs2 & Hkeep2 & Hcov2).
    exists m2. split; [exact Hrun2 |]. split; [exact Hs2 |]. split; [auto |].
    intros k Hk. destruct (Z.ltb_spec k (8 * (n / 8))) as [Hw | Hb]; intros Hlane.
    + apply Hkeep2.
      replace k with (0 + 8 * (k / 8) + k mod 8) by (pose proof (Z.div_mod k 8); lia).
      apply Hcov1.
      * split.
        -- rewrite <- Hlane.
           apply Z.mod_le; [apply Z.div_pos; lia | lia].
        -- apply Z.div_lt_upper_bound; lia.
      * rewrite <- Hlane. rewrite Zminus_mod_idemp_r. rewrite Z.sub_diag.
        apply Z.mod_0_l. lia.
      * apply Z.mod_pos_bound. lia.
    + replace k with (8 * (n / 8) + 1 * (k - 8 * (n / 8)) + 0) by lia.
      apply Hcov2; [| | lia].
      * split; [| lia]. rewrite <- Hlane. apply Z.mod_le; lia.
      * rewrite <- Hlane. rewrite Zminus_mod_idemp_r. rewrite Z.sub_diag.
        apply Z.mod_0_l. lia.
Qed.

(** The loop of the generic copy from element [i] on: the iterators do
    not wrap, so there is no bound on the number of elements. *)
Lemma copy_false_type_loop_spec W stride count first result :
  0 < W -> 0 < stride -> n = W * count -> dst = result -> src = first ->
  forall fuel i m,
    0 <= i -> (Z.to_nat (count - i) < fuel)%nat ->
    safe mem0 m dst src n ->
    exists m',
      copy_false_type_loop W fuel stride (it_add W first i) (it_add W first count)
        (it_add W result i) m = Some m' /\
      safe mem0 m' dst src n /\
      (forall k, arrived mem0 m dst src k -> arrived mem0 m' dst src k) /\
      (forall j b, i <= j < count -> (j - i) mod stride = 0 -> 0 <= b < W ->
                   arrived mem0 m' dst src (W * j + b)).
Proof.
  intros HW Hst Hn Hdst Hsrc. unfold it_add.
  induction fuel as [| fuel IH]; intros i m Hi Hfuel Hs; [lia |].
  simpl. destruct (Z.ltb_spec (first + W * i) (first + W * count)) as [Hlt | Hge].
  - assert (Hic : i < count) by nia.
    unfold it_add.
    replace (first + W * i + W * stride) with (first + W * (i + stride)) by lia.
    replace (result + W * i + W * stride) with (result + W * (i + stride)) by lia.
    rewrite <- Hdst, <- Hsrc.
    destruct (IH (i + stride) (copy_elem W (dst + W * i) (src + W * i) m))
      as (m' & Hrun & Hs' & Hkeep & Hcov).
    + lia.
    + lia.
    + apply copy_elem_safe; auto; nia.
    + rewrite <- Hdst, <- Hsrc in Hrun.
      exists m'. split; [exact Hrun |]. split; [exact Hs' |]. split.
      * intros k Hk. apply Hkeep. apply copy_elem_keeps; auto; nia.
      * intros j b Hj Hmod Hb.
        destruct (Z.eq_dec j i) as [-> | Hne].
        -- apply Hkeep. apply copy_elem_arrives; auto; nia.
        -- apply Hcov; [| | exact Hb].
           ++ apply Z.mod_divide in Hmod; [| lia]. destruct Hmod as [c Hc].
              assert (1 <= c) by nia. nia.
           ++ replace (j - (i + stride)) with (j - i + (-1) * stride) by lia.
              rewrite Z.mod_add by lia. exact Hmod.
  - exists m. split; [reflexivity |]. split; [exact Hs |]. split; [auto |].
    intros j b Hj. nia.
Qed.

(** The lanes of a group, one after the other: when every lane keeps the
    invariant, returns [ret] and makes the bytes it owns arrive, so does
    the group for the bytes owned by its lanes. *)
Lemma run_group_spec {R} (body : context -> memory -> option (memory * R))
    (owner : Z -> Z) (ret : R) bdim bidx lanes :
  (forall t m, t ∈ lanes -> safe mem0 m dst src n ->
     exists m',
       body (Context (Z.of_nat t) bdim bidx) m = Some (m', ret) /\
       safe mem0 m' dst src n /\
       (forall k, arrived mem0 m dst src k -> arrived mem0 m' dst src k) /\
       (forall k, 0 <= k < n -> owner k = Z.of_nat t -> arrived mem0 m' dst src k)) ->
  forall m, safe mem0 m dst src n ->
  exists m',
    run_group body bdim bidx lanes m = Some (m', replicate (length lanes) ret) /\
    safe mem0 m' dst src n /\
    (forall k, arrived mem0 m dst src k -> arrived mem0 m' dst src k) /\
    (forall k t, 0 <= k < n -> t ∈ lanes -> owner k = Z.of_nat t ->
                 arrived mem0 m' dst src k).
Proof.
  induction lanes as [| t lanes IH]; intros Hbody m Hs.
  - exists m. simpl. repeat split; auto. intros k t _ Ht. inversion Ht.
  - destruct (Hbody t m ltac:(left) Hs) as (m1 & Hrun1 & Hs1 & Hkeep1 & Hcov1).
    destruct (IH (fun t' m' Hin => Hbody t' m' (list_elem_of_further _ _ _ Hin)) m1 Hs1)
      as (m2 & Hrun2 & Hs2 & Hkeep2 & Hcov2).
    exists m2. split.
    { cbn [run_group]. rewrite Hrun1. cbn [mbind option_bind]. rewrite Hrun2. reflexivity. }
    split; [exact Hs2 |]. split; [auto |].
    intros k t' Hk Hin Hlane. apply elem_of_cons in Hin as [-> | Hin].
    + apply Hkeep2. apply Hcov1; auto.
    + eapply Hcov2; eauto.
Qed.

(** The group has copied the range once the bytes of every owner have
    arrived. *)
Lemma copied_of_arrived (owner : Z -> Z) bdim lanes m' :
  Block.schedule_of bdim lanes ->
  (forall k, 0 <= k < n -> 0 <= owner k < Z.of_nat bdim) ->
  safe mem0 m' dst src n ->
  (forall k t, 0 <= k < n -> t ∈ lanes -> owner k = Z.of_nat t ->
               arrived mem0 m' dst src k) ->
  copied mem0 m' dst src n.
Proof.
  intros Hsched Hown Hs Hcov. split.
  - intros k Hk. pose proof (Hown k Hk) as Hl.
    apply (Hcov k (Z.to_nat (owner k))); [exact Hk | | lia].
    rewrite Hsched. apply elem_of_seq. lia.
  - intros a Ha. destruct (Hs a) as [E | [Hr _]]; [exact E | lia].
Qed.

Lemma it_diff_add W first count : 0 < W -> it_diff W (it_add W first count) first = count.
Proof.
  intros HW. unfold it_diff, it_add.
  replace (first + W * count - first) with (count * W) by lia.
  apply Z.div_mul. lia.
Qed.

(** One lane of the generic copy. *)
Lemma copy_false_type_lane W fuel ctx first result count m :
  0 < W -> 0 <= count -> n = W * count -> dst = result -> src = first ->
  0 <= thread_index ctx < block_dimension ctx ->
  (Z.to_nat count < fuel)%nat ->
  safe mem0 m dst src n ->
  exists m',
    copy_false_type W fuel ctx first (it_add W first count) result m
      = Some (m', it_add W result count) /\
    safe mem0 m' dst src n /\
    (forall k, arrived mem0 m dst src k -> arrived mem0 m' dst src k) /\
    (forall k, 0 <= k < n -> (k / W) mod block_dimension ctx = thread_index ctx ->
               arrived mem0 m' dst src k).
Proof.
  intros HW Hc Hn Hdst Hsrc Htid Hfuel Hs. unfold copy_false_type.
  rewrite it_diff_add by exact HW.
  destruct (copy_false_type_loop_spec W (block_dimension ctx) count first result
              HW ltac:(lia) Hn Hdst Hsrc fuel (thread_index ctx) m ltac:(lia) ltac:(lia) Hs)
    as (m' & Hrun & Hs' & Hkeep & Hcov).
  exists m'. rewrite Hrun. split; [reflexivity |]. split; [exact Hs' |]. split; [exact Hkeep |].
  intros k Hk Hlane.
  replace k with (W * (k / W) + k mod W) by (pose proof (Z.div_mod k W); lia).
  apply Hcov.
  - split.
    + rewrite <- Hlane. apply Z.mod_le; [apply Z.div_pos; lia | lia].
    + apply Z.div_lt_upper_bound; lia.
  - rewrite <- Hlane. rewrite Zminus_mod_idemp_r. rewrite Z.sub_diag. apply Z.mod_0_l. lia.
  - apply Z.mod_pos_bound. lia.
Qed.

(** One lane of the raw-byte copy when no counter can wrap. *)
Lemma copy_true_type_lane W fuel ctx first result count m :
  0 < W -> 0 <= count -> n = W * count -> dst = result -> src = first ->
  n + block_dimension ctx <= 2 ^ 32 ->
  0 <= thread_index ctx < block_dimension ctx ->
  (Z.to_nat n < fuel)%nat ->
  safe mem0 m dst src n ->
  exists m',
    copy_true_type W fuel ctx first (it_add W first count) result m
      = Some (m', it_add W result count) /\
    safe mem0 m' dst src n /\
    (forall k, arrived mem0 m dst src k -> arrived mem0 m' dst src k) /\
    (forall k, 0 <= k < n ->
               lane_of_byte (block_dimension ctx) dst src n k = thread_index ctx ->
               arrived mem0 m' dst src k).
Proof.
  intros HW Hc Hn Hdst Hsrc Hwrap Htid Hfuel Hs. unfold copy_true_type.
  rewrite it_diff_add by exact HW.
  assert (Hcn : 0 <= count <= n) by nia.
  rewrite (usize_small count) by lia.
  rewrite (usize_small (count * W)) by lia.
  replace (count * W) with n by lia. rewrite <- Hdst, <- Hsrc.
  destruct (trivial_copy_lane fuel ctx m ltac:(lia) Hwrap Htid Hfuel Hs)
    as (m' & Hrun & Hs' & Hkeep & Hcov).
  exists m'. rewrite Hrun. auto.
Qed.

End BlockCopyFacts.

Section BlockCopyResults.
Import Block BlockSpec.

Lemma lane_of_byte_bound bdim dst src n k :
  0 < bdim -> 0 <= lane_of_byte bdim dst src n k < bdim.
Proof.
  intros Hb. unfold lane_of_byte.
  repeat match goal with |- context [if ?c then _ else _] => destruct c end;
    apply Z.mod_pos_bound; lia.
Qed.

(** Below the wrap of the 32-bit counters, [trivial_copy] run by a whole
    group returns and has copied the [n] bytes, whatever the alignment of
    the two addresses and the order of the lanes. *)
Lemma trivial_copy_correct fuel bdim lanes dst src n mem0 :
  schedule_of bdim lanes ->
  (0 < bdim)%nat -> 0 <= n -> n + Z.of_nat bdim <= 2 ^ 32 ->
  (Z.to_nat n < fuel)%nat ->
  disjoint_ranges dst src n ->
  exists m' rs,
    group_trivial_copy fuel bdim lanes dst src n mem0 = Some (m', rs) /\
    copied mem0 m' dst src n.
Proof.
  intros Hsched Hb Hn Hwrap Hfuel Hdisj.
  destruct (run_group_spec mem0 dst src n
              (fun ctx => returning_unit (trivial_copy fuel ctx dst src n))
              (lane_of_byte (Z.of_nat bdim) dst src n) tt (Z.of_nat bdim) 0 lanes)
    with (m := mem0) as (m' & Hrun & Hs & _ & Hcov).
  - intros t m Ht Hs. rewrite Hsched in Ht. apply elem_of_seq in Ht.
    destruct (trivial_copy_lane mem0 dst src n Hdisj fuel
                (Context (Z.of_nat t) (Z.of_nat bdim) 0) m)
      as (m1 & Hrun1 & Hs1 & Hkeep1 & Hcov1); simpl; auto; try lia.
    exists m1. unfold returning_unit. rewrite Hrun1. auto.
  - intros a. left. reflexivity.
  - exists m', (replicate (length lanes) tt). split; [exact Hrun |].
    eapply copied_of_arrived; eauto.
    intros k _. apply lane_of_byte_bound. lia.
Qed.

(** The generic branch of [block::copy], run by a whole group, returns
    and has copied the range, for every number of elements; every lane
    returns the end of the output. *)
Lemma copy_generic_correct cuda_arch is_trivial W fuel bdim lanes first result count mem0 :
  cuda_arch < 200 \/ is_trivial = false ->
  schedule_of bdim lanes -> (0 < bdim)%nat ->
  0 < W -> 0 <= count ->
  (Z.to_nat count < fuel)%nat ->
  disjoint_ranges result first (W * count) ->
  exists m',
    group_copy cuda_arch is_trivial W fuel bdim lanes first (it_add W first count) result mem0
      = Some (m', replicate (length lanes) (it_add W result count)) /\
    copied mem0 m' result first (W * count).
Proof.
  intros Hpath Hsched Hb HW Hc Hfuel Hdisj. unfold group_copy.
  destruct (run_group_spec mem0 result first (W * count)
              (fun ctx => copy cuda_arch is_trivial W fuel ctx first (it_add W first count) result)
              (fun k => (k / W) mod Z.of_nat bdim) (it_add W result count)
              (Z.of_nat bdim) 0 lanes)
    with (m := mem0) as (m' & Hrun & Hs & _ & Hcov).
  - intros t m Ht Hs. rewrite Hsched in Ht. apply elem_of_seq in Ht.
    assert (E : copy cuda_arch is_trivial W fuel (Context (Z.of_nat t) (Z.of_nat bdim) 0)
                  first (it_add W first count) result m
                = copy_false_type W fuel (Context (Z.of_nat t) (Z.of_nat bdim) 0)
                    first (it_add W first count) result m).
    { unfold copy. destruct (Z.ltb_spec cuda_arch 200); [reflexivity |].
      destruct Hpath as [? | ->]; [lia | reflexivity]. }
    rewrite E.
    apply (copy_false_type_lane mem0 result first (W * count) Hdisj); simpl; auto; lia.
  - intros a. left. reflexivity.
  - exists m'. split; [exact Hrun |].
    apply (copied_of_arrived mem0 result first (W * count)
             (fun k => (k / W) mod Z.of_nat bdim) bdim lanes m'); auto.
    intros k _. apply Z.mod_pos_bound. lia.
Qed.

(** The raw-byte branch of [block::copy], run by a whole group, returns
    and has copied the range as long as no 32-bit counter can wrap. *)
Lemma copy_trivial_correct cuda_arch W fuel bdim lanes first result count mem0 :
  200 <= cuda_arch ->
  schedule_of bdim lanes -> (0 < bdim)%nat ->
  0 < W -> 0 <= count -> W * count + Z.of_nat bdim <= 2 ^ 32 ->
  (Z.to_nat (W * count) < fuel)%nat ->
  disjoint_ranges result first (W * count) ->
  exists m',
    group_copy cuda_arch true W fuel bdim lanes first (it_add W first count) result mem0
      = Some (m', replicate (length lanes) (it_add W result count)) /\
    copied mem0 m' result first (W * count).
Proof.
  intros Hpath Hsched Hb HW Hc Hwrap Hfuel Hdisj. unfold group_copy.
  destruct (run_group_spec mem0 result first (W * count)
              (fun ctx => copy cuda_arch true W fuel ctx first (it_add W first count) result)
              (lane_of_byte (Z.of_nat bdim) result first (W * count)) (it_add W result count)
              (Z.of_nat bdim) 0 lanes)
    with (m := mem0) as (m' & Hrun & Hs & _ & Hcov).
  - intros t m Ht Hs. rewrite Hsched in Ht. apply elem_of_seq in Ht.
    assert (E : copy cuda_arch true W fuel (Context (Z.of_nat t) (Z.of_nat bdim) 0)
                  first (it_add W first count) result m
                = copy_true_type W fuel (Context (Z.of_nat t) (Z.of_nat bdim) 0)
                    first (it_add W first count) result m).
    { unfold copy. destruct (Z.ltb_spec cuda_arch 200); [lia | reflexivity]. }
    rewrite E.
    apply (copy_true_type_lane mem0 result first (W * count) Hdisj); simpl; auto; lia.
  - intros a. left. reflexivity.
  - exists m'. split; [exact Hrun |].
    eapply copied_of_arrived; eauto.
    intros k _. apply lane_of_byte_bound. lia.
Qed.

(** Two memories that hold the same copy agree everywhere. *)
Lemma copied_unique mem0 m1 m2 dst src n a :
  copied mem0 m1 dst src n -> copied mem0 m2 dst src n -> m1 a = m2 a.
Proof.
  intros [H1 F1] [H2 F2].
  destruct (Z_le_gt_dec dst a) as [Hle |]; [destruct (Z_lt_le_dec a (dst + n)) as [Hlt |] |].
  - replace a with (dst + (a - dst)) by lia. rewrite H1, H2 by lia. reflexivity.
  - rewrite F1, F2 by lia. reflexivity.
  - rewrite F1, F2 by lia. reflexivity.
Qed.

(** Below the wrap of the 32-bit counters the two branches of
    [block::copy] leave the same memory and return the same iterator. *)
Lemma copy_branches_agree arch1 arch2 trivial1 W fuel1 fuel2 bdim lanes1 lanes2
    first result count mem0 :
  arch1 < 200 \/ trivial1 = false -> 200 <= arch2 ->
  schedule_of bdim lanes1 -> schedule_of bdim lanes2 -> (0 < bdim)%nat ->
  0 < W -> 0 <= count -> W * count + Z.of_nat bdim <= 2 ^ 32 ->
  (Z.to_nat count < fuel1)%nat -> (Z.to_nat (W * count) < fuel2)%nat ->
  disjoint_ranges result first (W * count) ->
  exists m1 m2 rs,
    group_copy arch1 trivial1 W fuel1 bdim lanes1 first (it_add W first count) result mem0
      = Some (m1, rs) /\
    group_copy arch2 true W fuel2 bdim lanes2 first (it_add W first count) result mem0
      = Some (m2, rs) /\
    (forall a, m1 a = m2 a) /\
    Forall (fun r => r = it_add W result count) rs.
Proof.
  intros Hp1 Hp2 Hs1 Hs2 Hb HW Hc Hwrap Hf1 Hf2 Hdisj.
  destruct (copy_generic_correct arch1 trivial1 W fuel1 bdim lanes1 first result count mem0)
    as (m1 & Hrun1 & Hc1); auto.
  destruct (copy_trivial_correct arch2 W fuel2 bdim lanes2 first result count mem0)
    as (m2 & Hrun2 & Hc2); auto.
  exists m1, m2, (replicate (length lanes1) (it_add W result count)).
  split; [exact Hrun1 |]. split.
  - rewrite Hrun2. do 3 f_equal. unfold schedule_of in *.
    rewrite Hs1, Hs2. reflexivity.
  - split; [intros a; eapply copied_unique; eauto |].
    apply Forall_forall. intros r Hr. apply elem_of_replicate in Hr. tauto.
Qed.

(** Whenever a lane returns from [block::copy], on either branch, it
    returns [result + (last - first)]. *)
Lemma copy_returns_end cuda_arch is_trivial W fuel ctx first result count m m' r :
  0 < W -> 0 <= count < 2 ^ 64 ->
  copy cuda_arch is_trivial W fuel ctx first (it_add W first count) result m = Some (m', r) ->
  r = it_add W result count.
Proof.
  intros HW Hc. unfold copy, copy_true_type, copy_false_type.
  rewrite it_diff_add by exact HW. rewrite (usize_small count) by exact Hc.
  repeat match goal with |- context [if ?c then _ else _] => destruct c end;
    intros H; apply bind_Some in H as (m1 & _ & H); congruence.
Qed.

(** *** Counts of 2^32 and more *)

(** With a byte count of 2^32 or more the byte-wise loop of the
    misaligned branch never ends: its 32-bit counter stays below the
    bound. *)
Lemma strided_loop_diverges W fuel i bound stride dst src m :
  2 ^ 32 <= bound -> 0 <= i < 2 ^ 32 ->
  strided_loop W fuel i bound stride dst src m = None.
Proof.
  intros Hb. revert i m. induction fuel as [| fuel IH]; intros i m Hi; [reflexivity |].
  simpl. destruct (Z.ltb_spec i bound); [| lia].
  apply IH. unfold u32. apply Z.mod_pos_bound. lia.
Qed.

(** Just below 2^32 bytes the counter of lane 0 of a group of 256 lanes
    wraps from 2^32 - 256 to 0 and the loop starts again: the lane never
    returns, whatever the width of [size_t]. *)
Lemma strided_loop_wraps_forever W fuel dst src : forall i m,
  i mod 256 = 0 -> 0 <= i < 2 ^ 32 ->
  strided_loop W fuel i (2 ^ 32 - 1) 256 dst src m = None.
Proof.
  induction fuel as [| fuel IH]; intros i m Hmod Hi; [reflexivity |].
  cbn [strided_loop].
  assert (Hle : i <= 2 ^ 32 - 256).
  { pose proof (Z.div_mod i 256 ltac:(lia)) as E. rewrite Hmod in E. lia. }
  destruct (Z.ltb_spec i (2 ^ 32 - 1)); [| lia].
  apply IH.
  - destruct (Z.eq_dec (i + 256) (2 ^ 32)) as [E | Hne].
    + rewrite E. reflexivity.
    + rewrite u32_small by lia.
      replace (i + 256) with (i + 1 * 256) by lia. rewrite Z.mod_add by lia. exact Hmod.
  - unfold u32. apply Z.mod_pos_bound. lia.
Qed.

Lemma trivial_copy_never_returns fuel m :
  trivial_copy fuel (Context 0 256 0) (2 ^ 33 + 1) 0 (2 ^ 32 - 1) m = None.
Proof.
  unfold trivial_copy.
  change (negb (usize (2 ^ 33 + 1) mod sizeof_uint2 =? 0)
          || negb (usize 0 mod sizeof_uint2 =? 0)) with true.
  cbn iota. apply strided_loop_wraps_forever; [reflexivity | ].
  cbn [thread_index]. change (u32 0) with 0. lia.
Qed.

Lemma aligned_copy_huge_count W fuel ctx dst src m :
  aligned_copy W (S fuel) ctx dst src huge_count m = Some m.
Proof.
  unfold aligned_copy. change (u32 huge_count) with 0. simpl.
  destruct (Z.ltb_spec (u32 (thread_index ctx)) 0) as [Hneg |]; [| reflexivity].
  unfold u32 in Hneg. pose proof (Z.mod_pos_bound (thread_index ctx) (2 ^ 32)). lia.
Qed.

Lemma trivial_copy_huge fuel ctx m :
  trivial_copy (S fuel) ctx far 0 huge m = Some m.
Proof.
  unfold trivial_copy.
  change (negb (usize far mod sizeof_uint2 =? 0) || negb (usize 0 mod sizeof_uint2 =? 0))
    with false.
  change (quotient_and_remainder huge sizeof_int2) with (huge_count, 0).
  cbn [fst snd]. rewrite aligned_copy_huge_count. cbn [mbind option_bind].
  unfold aligned_copy. change (u32 0) with 0. simpl.
  destruct (Z.ltb_spec (u32 (thread_index ctx)) 0) as [Hneg |]; [| reflexivity].
  unfold u32 in Hneg. pose proof (Z.mod_pos_bound (thread_index ctx) (2 ^ 32)). lia.
Qed.

Lemma run_group_const {R} (body : context -> memory -> option (memory * R)) (ret : R)
    bdim bidx lanes m :
  (forall ctx, body ctx m = Some (m, ret)) ->
  run_group body bdim bidx lanes m = Some (m, replicate (length lanes) ret).
Proof.
  intros Hbody. induction lanes as [| t lanes IH]; [reflexivity |].
  cbn [run_group]. rewrite Hbody. cbn [mbind option_bind]. rewrite IH. reflexivity.
Qed.

Lemma two_tone_not_copied : ~ copied (two_tone far) (two_tone far) far 0 huge.
Proof. intros [H _]. specialize (H 0 ltac:(unfold huge; lia)). discriminate H. Qed.

(** C3, at a byte count the 32-bit element count of [aligned_copy] cannot
    hold.  For 2^35 bytes between two aligned, non-overlapping addresses
    every lane of [trivial_copy] returns at once: the count of wide
    elements, 2^32, becomes 0 in the [unsigned int] parameter.  The group
    completes and the destination does not hold the source bytes. *)
Theorem trivial_copy_truncates_wide_count :
  disjoint_ranges far 0 huge /\
  (forall fuel bdim lanes,
     group_trivial_copy (S fuel) bdim lanes far 0 huge (two_tone far)
     = Some (two_tone far, replicate (length lanes) tt)) /\
  ~ copied (two_tone far) (two_tone far) far 0 huge.
Proof.
  split; [right; unfold far, huge; lia |]. split; [| exact two_tone_not_copied].
  intros fuel bdim lanes. unfold group_trivial_copy. apply run_group_const.
  intros ctx. unfold returning_unit. rewrite trivial_copy_huge. reflexivity.
Qed.

(** C5, at the same byte count.  Both addresses are aligned, the quotient
    is 2^32 and the remainder 0, and quotient * 8 + remainder is the byte
    count; yet the wide copy called with this quotient performs no
    transfer at all (a single one would change the memory), and so does
    [trivial_copy]. *)
Theorem aligned_branch_drops_wide_transfers :
  negb (usize far mod sizeof_uint2 =? 0) || negb (usize 0 mod sizeof_uint2 =? 0) = false /\
  quotient_and_remainder huge sizeof_int2 = (huge_count, 0) /\
  huge_count * sizeof_int2 + 0 = huge /\
  (forall fuel ctx m, aligned_copy sizeof_int2 (S fuel) ctx far 0 huge_count m = Some m) /\
  (forall fuel ctx m, trivial_copy (S fuel) ctx far 0 huge m = Some m) /\
  copy_elem sizeof_int2 far 0 (two_tone far) far <> two_tone far far.
Proof.
  split; [reflexivity |]. split; [reflexivity |]. split; [reflexivity |].
  split; [intros; apply aligned_copy_huge_count |].
  split; [intros; apply trivial_copy_huge |].
  discriminate.
Qed.

Lemma copy_true_type_huge fuel ctx m :
  copy_true_type sizeof_int2 (S fuel) ctx 0 (it_add sizeof_int2 0 huge_count) far m
  = Some (m, it_add sizeof_int2 far huge_count).
Proof.
  unfold copy_true_type. rewrite it_diff_add by (unfold sizeof_int2; lia).
  change (usize huge_count) with huge_count.
  change (usize (huge_count * sizeof_int2)) with huge.
  rewrite trivial_copy_huge. reflexivity.
Qed.

(** C6, for a range of 2^32 elements of 8 bytes on the raw-byte branch.
    Every lane returns [result + (last - first)], and the group completes,
    but no element has been copied. *)
Theorem copy_true_type_huge_range_not_copied :
  disjoint_ranges far 0 (sizeof_int2 * huge_count) /\
  (forall fuel bdim lanes,
     group_copy 200 true sizeof_int2 (S fuel) bdim lanes
       0 (it_add sizeof_int2 0 huge_count) far (two_tone far)
     = Some (two_tone far, replicate (length lanes) (it_add sizeof_int2 far huge_count))) /\
  ~ copied (two_tone far) (two_tone far) far 0 (sizeof_int2 * huge_count).
Proof.
  split; [right; unfold far, huge_count, sizeof_int2; lia |].
  split; [| exact two_tone_not_copied].
  intros fuel bdim lanes. unfold group_copy. apply run_group_const.
  intros ctx. unfold copy. change (200 <? 200) with false. cbn iota.
  apply copy_true_type_huge.
Qed.

(** C9, for the same range and a group of one lane.  With enough fuel
    both branches complete and return the same iterator; the generic
    branch has copied the range, the raw-byte branch has left the
    destination as it was. *)
Theorem copy_branches_differ_on_huge_range :
  exists fuel m1 m2 r,
    group_copy 100 true sizeof_int2 fuel 1 [0%nat]
      0 (it_add sizeof_int2 0 huge_count) far (two_tone far) = Some (m1, [r]) /\
    group_copy 200 true sizeof_int2 fuel 1 [0%nat]
      0 (it_add sizeof_int2 0 huge_count) far (two_tone far) = Some (m2, [r]) /\
    r = it_add sizeof_int2 far huge_count /\
    m1 far = x01 /\ m2 far = x00.
Proof.
  destruct (copy_generic_correct 100 true sizeof_int2 (S (Z.to_nat huge_count)) 1 [0%nat]
              0 far huge_count (two_tone far))
    as (m1 & Hrun1 & Hcopied & _).
  - left. lia.
  - unfold schedule_of. reflexivity.
  - lia.
  - unfold sizeof_int2. lia.
  - unfold huge_count. lia.
  - lia.
  - right. unfold far, huge_count, sizeof_int2. lia.
  - exists (S (Z.to_nat huge_count)), m1, (two_tone far), (it_add sizeof_int2 far huge_count).
    split; [exact Hrun1 |]. split.
    + unfold group_copy.
      apply (run_group_const _ (it_add sizeof_int2 far huge_count) 1 0 [0%nat]).
      intros ctx. unfold copy. change (200 <? 200) with false. cbn iota.
      apply copy_true_type_huge.
    + split; [reflexivity |]. split; [| reflexivity].
      specialize (Hcopied 0 ltac:(unfold huge_count, sizeof_int2; lia)).
      rewrite Z.add_0_r in Hcopied. rewrite Hcopied. reflexivity.
Qed.

End BlockCopyResults.

(** ** Stream compaction *)

(** *** Selected positions and their number *)

Section CountFacts.
Import CopyIfSpec.

Variable flag : Z -> Z.

Lemma selected_empty lo hi : hi <= lo -> selected flag lo hi = [].
Proof.
  intros H. unfold selected, seqZ. replace (Z.to_nat (hi - lo)) with 0%nat by lia. reflexivity.
Qed.

Lemma selected_split lo mid hi :
  lo <= mid <= hi -> selected flag lo hi = selected flag lo mid ++ selected flag mid hi.
Proof.
  intros H. unfold selected.
  replace (hi - lo) with ((mid - lo) + (hi - mid)) by lia.
  rewrite seqZ_app by lia. rewrite filter_app.
  replace (lo + (mid - lo)) with mid by lia. reflexivity.
Qed.

Lemma selected_one i :
  selected flag i (i + 1) = if decide (flag i <> 0) then [i] else [].
Proof.
  unfold selected. replace (i + 1 - i) with 1 by lia. reflexivity.
Qed.

Lemma count_empty lo hi : hi <= lo -> count flag lo hi = 0.
Proof. intros H. unfold count. rewrite selected_empty by exact H. reflexivity. Qed.

Lemma count_split lo mid hi :
  lo <= mid <= hi -> count flag lo hi = count flag lo mid + count flag mid hi.
Proof.
  intros H. unfold count. rewrite (selected_split lo mid hi H), length_app. lia.
Qed.

Lemma count_nonneg lo hi : 0 <= count flag lo hi.
Proof. unfold count. lia. Qed.

Lemma count_set i : flag i <> 0 -> count flag i (i + 1) = 1.
Proof.
  intros H. unfold count. rewrite selected_one. destruct (decide (flag i <> 0)); [reflexivity | tauto].
Qed.

Lemma count_clear i : flag i = 0 -> count flag i (i + 1) = 0.
Proof.
  intros H. unfold count. rewrite selected_one. destruct (decide (flag i <> 0)); [tauto | reflexivity].
Qed.

Lemma count_mono lo mid hi : lo <= mid <= hi -> count flag lo mid <= count flag lo hi.
Proof. intros H. rewrite (count_split lo mid hi H). pose proof (count_nonneg mid hi). lia. Qed.

(** A selected position is counted by every later position. *)
Lemma count_lt i j :
  0 <= i < j -> flag i <> 0 -> count flag 0 i < count flag 0 j.
Proof.
  intros Hij Hi.
  rewrite (count_split 0 (i + 1) j) by lia. rewrite (count_split 0 i (i + 1)) by lia.
  rewrite (count_set i Hi). pose proof (count_nonneg (i + 1) j). lia.
Qed.

Lemma count_inj i j :
  0 <= i -> 0 <= j -> flag i <> 0 -> flag j <> 0 ->
  count flag 0 i = count flag 0 j -> i = j.
Proof.
  intros Hi Hj Fi Fj E.
  destruct (Z.lt_trichotomy i j) as [Hlt | [Heq | Hgt]]; [| exact Heq |].
  - pose proof (count_lt i j ltac:(lia) Fi). lia.
  - pose proof (count_lt j i ltac:(lia) Fj). lia.
Qed.

Lemma elem_of_selected lo hi i :
  i ∈ selected flag lo hi <-> flag i <> 0 /\ lo <= i < hi.
Proof.
  unfold selected. rewrite list_elem_of_filter, elem_of_seqZ. intuition lia.
Qed.

Lemma NoDup_selected lo hi : NoDup (selected flag lo hi).
Proof. unfold selected. apply NoDup_filter, NoDup_seqZ. Qed.

(** The [j]-th selected position is preceded by [j] selected positions. *)
Lemma selected_lookup n j i :
  selected flag 0 n !! j = Some i ->
  0 <= i < n /\ flag i <> 0 /\ count flag 0 i = Z.of_nat j.
Proof.
  intros Hj.
  assert (Hin : i ∈ selected flag 0 n) by (apply list_elem_of_lookup; eauto).
  apply elem_of_selected in Hin as [Hf Hr].
  split; [exact Hr |]. split; [exact Hf |].
  assert (Hat : selected flag 0 n !! length (selected flag 0 i) = Some i).
  { rewrite (selected_split 0 i n) by lia. rewrite (selected_split i (i + 1) n) by lia.
    rewrite selected_one. destruct (decide (flag i <> 0)); [| tauto].
    rewrite lookup_app_r by lia. rewrite Nat.sub_diag. reflexivity. }
  pose proof (NoDup_lookup _ _ _ _ (NoDup_selected 0 n) Hj Hat) as E.
  unfold count. lia.
Qed.

Lemma selected_lookup_count n i :
  0 <= i < n -> flag i <> 0 ->
  selected flag 0 n !! Z.to_nat (count flag 0 i) = Some i.
Proof.
  intros Hr Hf. unfold count. rewrite Nat2Z.id.
  rewrite (selected_split 0 i n) by lia. rewrite (selected_split i (i + 1) n) by lia.
  rewrite selected_one. destruct (decide (flag i <> 0)); [| tauto].
  rewrite lookup_app_r by lia. rewrite Nat.sub_diag. reflexivity.
Qed.

Hypothesis flag01 : forall i, flag i = 0 \/ flag i = 1.

(** The sum of the flags of an interval is the number of its selected
    positions. *)
Lemma sumZ_flags lo len :
  sumZ (map flag (seqZ lo (Z.of_nat len))) = count flag lo (lo + Z.of_nat len).
Proof.
  revert lo. induction len as [| len IH]; intros lo.
  - rewrite count_empty by lia. reflexivity.
  - rewrite seqZ_cons by lia. cbn [map sumZ].
    replace (Z.pred (Z.of_nat (S len))) with (Z.of_nat len) by lia.
    rewrite IH. rewrite (count_split lo (lo + 1) (lo + Z.of_nat (S len))) by lia.
    replace (Z.succ lo + Z.of_nat len) with (lo + Z.of_nat (S len)) by lia.
    replace (Z.succ lo) with (lo + 1) by lia.
    destruct (flag01 lo) as [E | E].
    + rewrite (count_clear lo E). lia.
    + rewrite (count_set lo) by lia. lia.
Qed.

End CountFacts.

Lemma foldl_add_sumZ l acc : foldl Z.add acc l = acc + CopyIfSpec.sumZ l.
Proof.
  revert acc. induction l as [| x l IH]; intros acc; simpl; [lia |]. rewrite IH. lia.
Qed.

(** *** Scans *)

Section ScanFacts.
Import CopyIf CopyIfSpec.

Lemma sumZ_app l1 l2 : sumZ (l1 ++ l2) = sumZ l1 + sumZ l2.
Proof. induction l1 as [| x l1 IH]; simpl; lia. Qed.

Lemma length_scan_from {A} (op : A -> A -> A) acc l :
  length (scan_from op acc l) = length l.
Proof. revert acc. induction l as [| x l IH]; intros acc; simpl; [| rewrite IH]; reflexivity. Qed.

Lemma length_inclusive_scan {A} (op : A -> A -> A) l :
  length (inclusive_scan op l) = length l.
Proof. destruct l as [| x l]; simpl; [| rewrite length_scan_from]; reflexivity. Qed.

Lemma nth_scan_from {A} (op : A -> A -> A) l : forall acc t d,
  (t < length l)%nat -> nth t (scan_from op acc l) d = foldl op acc (take (S t) l).
Proof.
  induction l as [| x l IH]; intros acc t d Ht; simpl in Ht; [lia |].
  destruct t as [| t]; [reflexivity |].
  cbn [scan_from nth]. rewrite IH by lia. reflexivity.
Qed.

(** Slot [t] of an inclusive scan under addition holds the sum of the
    slots up to [t]. *)
Lemma nth_inclusive_scan_add l t :
  (t < length l)%nat -> nth t (inclusive_scan Z.add l) 0 = sumZ (take (S t) l).
Proof.
  destruct l as [| x l]; intros Ht; simpl in Ht; [lia |].
  destruct t as [| t]; [simpl; lia |].
  cbn [inclusive_scan nth]. rewrite nth_scan_from by lia.
  rewrite foldl_add_sumZ. reflexivity.
Qed.

Lemma sumZ_bits_bound l :
  Forall (fun x => 0 <= x <= 1) l -> 0 <= sumZ l <= Z.of_nat (length l).
Proof. induction 1 as [| x l Hx _ IH]; simpl; lia. Qed.

Lemma foldl_plus_u32 l : forall acc,
  Forall (fun x => 0 <= x <= 1) l -> 0 <= acc -> acc + Z.of_nat (length l) < 2 ^ 32 ->
  foldl plus_u32 acc l = acc + sumZ l.
Proof.
  induction l as [| x l IH]; intros acc Hl Hacc Hb; simpl; [lia |].
  inversion Hl as [| ? ? Hx Hl']; subst. simpl in Hb.
  unfold plus_u32 at 2. rewrite u32_small by lia. rewrite IH by (auto; lia). lia.
Qed.

(** The same for a scan of flags under [unsigned int] addition, as long
    as the array is shorter than 2^32. *)
Lemma nth_inclusive_scan_u32 l t :
  Forall (fun x => 0 <= x <= 1) l -> Z.of_nat (length l) < 2 ^ 32 ->
  (t < length l)%nat -> nth t (inclusive_scan plus_u32 l) 0 = sumZ (take (S t) l).
Proof.
  destruct l as [| x l]; intros Hl Hb Ht; simpl in Ht; [lia |].
  inversion Hl as [| ? ? Hx Hl']; subst. simpl in Hb.
  destruct t as [| t]; [simpl; lia |].
  cbn [inclusive_scan nth]. rewrite nth_scan_from by lia.
  rewrite foldl_plus_u32; [reflexivity | | lia |].
  - apply Forall_take. exact Hl'.
  - rewrite length_take. lia.
Qed.

(** *** The shared array after every lane has stored its flag *)

Lemma length_read_data lanes g : forall sd, length (read_data lanes g sd) = length sd.
Proof.
  unfold read_data. induction lanes as [| t lanes IH]; intros sd; simpl; [reflexivity |].
  rewrite IH. apply length_insert.
Qed.

Lemma lookup_read_data lanes g i : forall sd,
  (i < length sd)%nat ->
  read_data lanes g sd !! i = if decide (i ∈ lanes) then Some (g i) else sd !! i.
Proof.
  unfold read_data. induction lanes as [| t lanes IH]; intros sd Hi; simpl.
  - destruct (decide (i ∈ [])) as [Hin |]; [inversion Hin | reflexivity].
  - rewrite IH by (rewrite length_insert; exact Hi).
    destruct (decide (i ∈ lanes)) as [Hin | Hnin].
    + destruct (decide (i ∈ t :: lanes)) as [| Hn]; [reflexivity |].
      exfalso. apply Hn. right. exact Hin.
    + destruct (decide (i = t)) as [-> | Hne].
      * rewrite list_lookup_insert_eq by exact Hi.
        destruct (decide (t ∈ t :: lanes)) as [| Hn]; [reflexivity |].
        exfalso. apply Hn. left.
      * rewrite list_lookup_insert_ne by congruence.
        destruct (decide (i ∈ t :: lanes)) as [Hin |]; [| reflexivity].
        apply elem_of_cons in Hin as [? | ?]; tauto.
Qed.

(** Whatever the shared array held and whatever the order of the lanes,
    after the store of every lane slot [t] holds the flag of lane [t]. *)
Lemma read_data_all lanes g sd size :
  lanes ≡ₚ seq 0 size -> length sd = size ->
  read_data lanes g sd = map g (seq 0 size).
Proof.
  intros Hp Hlen. apply list_eq. intros i.
  destruct (decide (i < size)%nat) as [Hi | Hi].
  - rewrite lookup_read_data by lia.
    destruct (decide (i ∈ lanes)) as [_ | Hn].
    + change (map g (seq 0 size)) with (g <$> seq 0 size).
      rewrite list_lookup_fmap, lookup_seq_lt by exact Hi. reflexivity.
    + exfalso. apply Hn. rewrite Hp. apply elem_of_seq. lia.
  - rewrite !lookup_ge_None_2; [reflexivity | |].
    + rewrite length_map, length_seq. lia.
    + rewrite length_read_data. lia.
Qed.

End ScanFacts.

(** *** Scattering *)

Section ScatterFacts.
Import CopyIf CopyIfSpec.
Context {T : Type}.
Variable flag : Z -> Z.
Variable elem : Z -> T.
Variable output : Z.

Lemma scattered_none (P : Z -> Prop) m :
  (forall i, P i -> False) -> scattered flag elem output P m m.
Proof. intros HP. split; [intros i Hi; destruct (HP i Hi) | reflexivity]. Qed.

Lemma scattered_ext (P Q : Z -> Prop) m m' :
  (forall i, P i <-> Q i) ->
  scattered flag elem output P m m' -> scattered flag elem output Q m m'.
Proof.
  intros HPQ [Hw Hf]. split.
  - intros i Hi. apply Hw, HPQ, Hi.
  - intros p Hp. apply Hf. intros i Hi. apply Hp, HPQ, Hi.
Qed.

(** Two scatterings one after the other: the second does not disturb
    what the first has written, as two selected positions never share a
    place in the output. *)
Lemma scattered_trans (P Q : Z -> Prop) m m1 m2 :
  (forall i, P i -> 0 <= i) -> (forall i, Q i -> 0 <= i) ->
  (forall i, Q i \/ ~ Q i) ->
  scattered flag elem output P m m1 -> scattered flag elem output Q m1 m2 ->
  scattered flag elem output (fun i => P i \/ Q i) m m2.
Proof.
  intros HP HQ Hdec [Hw1 Hf1] [Hw2 Hf2]. split.
  - intros i [Hi | Hi] Fi; [| apply Hw2; assumption].
    destruct (Hdec i) as [Hq | Hnq]; [apply Hw2; assumption |].
    rewrite Hf2; [apply Hw1; assumption |].
    intros j Hj Fj E. apply Hnq.
    assert (i = j) as ->; [| exact Hj].
    apply (count_inj flag); auto. lia.
  - intros p Hp. rewrite Hf2, Hf1; [reflexivity | |]; intros i Hi; apply Hp; auto.
Qed.

(** The result of a complete scattering, as a list. *)
Lemma scattered_compacted n m m' :
  scattered flag elem output (fun i => 0 <= i < n) m m' ->
  compacted_into flag elem output n m m'.
Proof.
  intros [Hw Hf]. split.
  - intros j x Hj. unfold compacted in Hj.
    change (map elem (selected flag 0 n)) with (elem <$> selected flag 0 n) in Hj.
    rewrite list_lookup_fmap in Hj.
    destruct (selected flag 0 n !! j) as [i |] eqn:Hi; [| discriminate].
    injection Hj as <-. apply selected_lookup in Hi as (Hr & Fi & Hc).
    rewrite <- Hc. apply Hw; assumption.
  - intros p Hp. apply Hf. intros i Hi Fi E. apply Hp.
    pose proof (count_nonneg flag 0 i).
    pose proof (count_lt flag i n ltac:(lia) Fi). lia.
Qed.

(** A memory is determined by what it is a compaction of. *)
Lemma compacted_into_unique n m m1 m2 p :
  compacted_into flag elem output n m m1 -> compacted_into flag elem output n m m2 ->
  m1 p = m2 p.
Proof.
  intros [Hw1 Hf1] [Hw2 Hf2].
  destruct (Z_le_gt_dec output p) as [Hle |];
    [destruct (Z_lt_le_dec p (output + count flag 0 n)) as [Hlt |] |].
  - assert (Hlen : (Z.to_nat (p - output) < length (compacted flag elem n))%nat).
    { unfold compacted. rewrite length_map. unfold count in Hlt. lia. }
    apply lookup_lt_is_Some_2 in Hlen as [x Hx].
    replace p with (output + Z.of_nat (Z.to_nat (p - output))) by lia.
    rewrite (Hw1 _ _ Hx), (Hw2 _ _ Hx). reflexivity.
  - rewrite Hf1, Hf2 by lia. reflexivity.
  - rewrite Hf1, Hf2 by lia. reflexivity.
Qed.

End ScatterFacts.

(** *** One group *)

Section ClosureFacts.
Import CopyIf CopyIfSpec.
Context {T : Type}.
Variable CTA_SIZE : nat.
Variable input_mem : Z -> T.
Variable stencil_mem : Z -> Z.
Variables input stencil output : Z.

Hypothesis flag01 : forall p, stencil_mem p = 0 \/ stencil_mem p = 1.
Hypothesis CTA_pos : (0 < CTA_SIZE)%nat.
Hypothesis CTA_u32 : Z.of_nat CTA_SIZE < 2 ^ 32.

Let flag (i : Z) : Z := stencil_mem (stencil + i).
Let elem (i : Z) : T := input_mem (input + i).

Lemma count_le_length lo hi : lo <= hi -> count flag lo hi <= hi - lo.
Proof.
  intros H. unfold count, selected.
  pose proof (length_filter (fun i => flag i <> 0) (seqZ lo (hi - lo))) as L.
  rewrite length_seqZ in L. lia.
Qed.

Local Abbreviation chunk_flags := (CopyIfSpec.chunk_flags CTA_SIZE flag).

Lemma full_predicate_flags b rend :
  b + Z.of_nat CTA_SIZE <= rend -> chunk_flags b rend (full_predicate stencil_mem stencil b).
Proof.
  intros H t Ht. unfold full_predicate. destruct (Z.ltb_spec (b + Z.of_nat t) rend); [| lia].
  unfold flag. destruct (flag01 (stencil + (b + Z.of_nat t))) as [-> | ->]; reflexivity.
Qed.

Lemma partial_predicate_flags b rend :
  chunk_flags b rend (partial_predicate stencil_mem stencil b rend).
Proof.
  intros t Ht. unfold partial_predicate. destruct (Z.ltb_spec (b + Z.of_nat t) rend); [| reflexivity].
  unfold flag. destruct (flag01 (stencil + (b + Z.of_nat t))) as [-> | ->]; reflexivity.
Qed.

Lemma chunk_flags_bits b rend g k :
  chunk_flags b rend g -> (k <= CTA_SIZE)%nat ->
  Forall (fun x => 0 <= x <= 1) (map g (seq 0 k)).
Proof.
  intros Hg Hk. apply Forall_forall. intros x Hx.
  change (map g (seq 0 k)) with (g <$> seq 0 k) in Hx.
  apply list_elem_of_fmap in Hx as (t & -> & Ht). apply elem_of_seq in Ht.
  rewrite Hg by lia. destruct (b + Z.of_nat t <? rend); [| lia].
  unfold flag. destruct (flag01 (stencil + (b + Z.of_nat t))) as [-> | ->]; lia.
Qed.

(** The sum of the flags of the first [k] lanes is the number of
    selected positions they cover. *)
Lemma prefix_sum b rend g k :
  chunk_flags b rend g -> b <= rend -> (k <= CTA_SIZE)%nat ->
  sumZ (map g (seq 0 k)) = count flag b (Z.min (b + Z.of_nat k) rend).
Proof.
  intros Hg Hb. induction k as [| k IH]; intros Hk.
  - rewrite count_empty by lia. reflexivity.
  - rewrite seq_S, map_app, sumZ_app, IH by lia. cbn [map sumZ Nat.add].
    rewrite Hg by lia. destruct (Z.ltb_spec (b + Z.of_nat k) rend) as [Hin | Hout].
    + replace (Z.min (b + Z.of_nat k) rend) with (b + Z.of_nat k) by lia.
      replace (Z.min (b + Z.of_nat (S k)) rend) with (b + Z.of_nat k + 1) by lia.
      rewrite (count_split flag b (b + Z.of_nat k) (b + Z.of_nat k + 1)) by lia.
      unfold flag at 2. destruct (flag01 (stencil + (b + Z.of_nat k))) as [E | E]; rewrite E.
      * rewrite count_clear by exact E. lia.
      * rewrite count_set by (unfold flag; lia). lia.
    + replace (Z.min (b + Z.of_nat k) rend) with rend by lia.
      replace (Z.min (b + Z.of_nat (S k)) rend) with rend by lia. lia.
Qed.

(** The scanned shared array of a chunk. *)
Lemma nth_scanned b rend g t :
  chunk_flags b rend g -> b <= rend -> (t < CTA_SIZE)%nat ->
  nth t (inclusive_scan plus_u32 (map g (seq 0 CTA_SIZE))) 0
  = count flag b (Z.min (b + Z.of_nat (S t)) rend).
Proof.
  intros Hg Hb Ht.
  rewrite nth_inclusive_scan_u32.
  - change (map g (seq 0 CTA_SIZE)) with (g <$> seq 0 CTA_SIZE).
    rewrite <- fmap_take, take_seq. replace (S t `min` CTA_SIZE)%nat with (S t) by lia.
    apply prefix_sum; auto.
  - eapply chunk_flags_bits; eauto.
  - rewrite length_map, length_seq. exact CTA_u32.
  - rewrite length_map, length_seq. exact Ht.
Qed.

(** What one lane writes. *)
Lemma write_lane_scattered b rend g o m t :
  chunk_flags b rend g -> 0 <= b <= rend -> (t < CTA_SIZE)%nat ->
  o = output + count flag 0 b ->
  scattered flag elem output (fun i => i = b + Z.of_nat t /\ i < rend) m
    (write_lane input_mem input g
       (inclusive_scan plus_u32 (map g (seq 0 CTA_SIZE))) b o m t).
Proof.
  intros Hg Hb Ht Ho. unfold write_lane. rewrite (nth_scanned b rend g t) by (auto; lia).
  pose proof (Hg t Ht) as Hgt.
  destruct (Z.eqb_spec (g t) 0) as [Hz | Hnz].
  - split; [| reflexivity]. intros i [-> Hi] Fi. exfalso.
    destruct (Z.ltb_spec (b + Z.of_nat t) rend); [| lia]. congruence.
  - destruct (Z.ltb_spec (b + Z.of_nat t) rend) as [Hin |]; [| congruence].
    replace (Z.min (b + Z.of_nat (S t)) rend) with (b + Z.of_nat t + 1) by lia.
    rewrite (count_split flag b (b + Z.of_nat t) (b + Z.of_nat t + 1)) by lia.
    rewrite count_set by congruence.
    replace (count flag b (b + Z.of_nat t) + 1 - 1) with (count flag b (b + Z.of_nat t)) by lia.
    pose proof (count_nonneg flag b (b + Z.of_nat t)).
    pose proof (count_le_length b (b + Z.of_nat t) ltac:(lia)).
    rewrite u32_small by lia.
    replace (o + count flag b (b + Z.of_nat t)) with (output + count flag 0 (b + Z.of_nat t))
      by (rewrite (count_split flag 0 b (b + Z.of_nat t)) by lia; lia).
    split.
    + intros i [-> _] _. unfold store. rewrite Z.eqb_refl. reflexivity.
    + intros p Hp. unfold store.
      destruct (Z.eqb_spec p (output + count flag 0 (b + Z.of_nat t))) as [E |]; [| reflexivity].
      exfalso. apply (Hp (b + Z.of_nat t)); [lia | congruence | exact E].
Qed.

(** What the lanes of a chunk write, in any order. *)
Lemma write_data_scattered b rend g o lanes :
  chunk_flags b rend g -> 0 <= b <= rend ->
  o = output + count flag 0 b ->
  (forall t, t ∈ lanes -> (t < CTA_SIZE)%nat) ->
  forall m,
    scattered flag elem output
      (fun i => Exists (fun t => i = b + Z.of_nat t /\ i < rend) lanes) m
      (write_data input_mem input lanes g
         (inclusive_scan plus_u32 (map g (seq 0 CTA_SIZE))) b o m).
Proof.
  intros Hg Hb Ho. unfold write_data.
  induction lanes as [| t lanes IH]; intros Hlt m.
  - apply scattered_none. intros i Hi. inversion Hi.
  - cbn [foldl].
    eapply scattered_ext; [| eapply scattered_trans;
      [ | | | apply (write_lane_scattered b rend g o m t); auto; apply Hlt; left
        | apply IH; intros t' Ht'; apply Hlt; right; exact Ht']].
    + intros i. rewrite Exists_cons. reflexivity.
    + intros i [-> _]. lia.
    + intros i Hi. apply Exists_exists in Hi as (t' & _ & -> & _). lia.
    + intros i.
      destruct (decide (Exists (fun t => i = b + Z.of_nat t /\ i < rend) lanes)); auto.
Qed.

(** One chunk: the length of the shared array is kept, its last slot
    holds the number of elements the chunk selects, and these have been
    written. *)
Lemma chunk_spec b rend g o lanes sd m :
  chunk_flags b rend g -> 0 <= b <= rend ->
  o = output + count flag 0 b ->
  lanes ≡ₚ seq 0 CTA_SIZE -> length sd = CTA_SIZE ->
  let sd' := inclusive_scan plus_u32 (read_data lanes g sd) in
  length sd' = CTA_SIZE /\
  o + nth (CTA_SIZE - 1) sd' 0
    = output + count flag 0 (Z.min (b + Z.of_nat CTA_SIZE) rend) /\
  scattered flag elem output (fun i => b <= i < Z.min (b + Z.of_nat CTA_SIZE) rend) m
    (write_data input_mem input lanes g sd' b o m).
Proof.
  intros Hg Hb Ho Hp Hlen sd'. subst sd'.
  rewrite (read_data_all lanes g sd CTA_SIZE Hp Hlen).
  split; [rewrite length_inclusive_scan, length_map, length_seq; reflexivity |].
  split.
  - rewrite (nth_scanned b rend g) by (auto; lia).
    replace (S (CTA_SIZE - 1)) with CTA_SIZE by lia.
    rewrite (count_split flag 0 b (Z.min (b + Z.of_nat CTA_SIZE) rend)) by lia. lia.
  - eapply scattered_ext; [| apply (write_data_scattered b rend g o lanes); auto].
    + intros i. rewrite Exists_exists. split.
      * intros (t & Ht & -> & Hi). rewrite Hp in Ht. apply elem_of_seq in Ht. lia.
      * intros Hi. exists (Z.to_nat (i - b)). split; [| lia].
        rewrite Hp. apply elem_of_seq. lia.
    + intros t Ht. rewrite Hp in Ht. apply elem_of_seq in Ht. lia.
Qed.

(** The loop over the full chunks of an interval that ends at [rend]. *)
Lemma full_blocks_spec lanes rend :
  lanes ≡ₚ seq 0 CTA_SIZE ->
  forall fuel st,
    0 <= base st <= rend ->
    out st = output + count flag 0 (base st) ->
    length (sdata st) = CTA_SIZE ->
    (Z.to_nat (rend - base st) < fuel)%nat ->
    exists st',
      full_blocks CTA_SIZE input_mem stencil_mem input stencil fuel lanes rend st = Some st' /\
      base st <= base st' <= rend /\
      rend < base st' + Z.of_nat CTA_SIZE /\
      out st' = output + count flag 0 (base st') /\
      length (sdata st') = CTA_SIZE /\
      scattered flag elem output (fun i => base st <= i < base st') (mem st) (mem st').
Proof.
  intros Hp. induction fuel as [| fuel IH]; intros st Hb Ho Hlen Hfuel; [lia |].
  cbn [full_blocks]. destruct (Z.leb_spec (base st + Z.of_nat CTA_SIZE) rend) as [Hfull | Hlast].
  - destruct (chunk_spec (base st) rend (full_predicate stencil_mem stencil (base st))
                (out st) lanes (sdata st) (mem st))
      as (Hlen1 & Hout1 & Hsc1); auto using full_predicate_flags.
    replace (Z.min (base st + Z.of_nat CTA_SIZE) rend) with (base st + Z.of_nat CTA_SIZE)
      in Hout1, Hsc1 by lia.
    match goal with |- context [full_blocks _ _ _ _ _ fuel lanes rend ?s] =>
      destruct (IH s) as (st' & Hrun & Hb' & Hend & Ho' & Hlen' & Hsc')
    end; cbn [base out sdata mem]; auto; try lia.
    cbn [base out sdata mem] in *.
    exists st'. split; [exact Hrun |]. split; [lia |]. split; [exact Hend |].
    split; [exact Ho' |]. split; [exact Hlen' |].
    apply (scattered_ext flag elem output
             (fun i => base st <= i < base st + Z.of_nat CTA_SIZE
                       \/ base st + Z.of_nat CTA_SIZE <= i < base st')).
    + intros i. lia.
    + refine (scattered_trans flag elem output _ _ _ _ _ _ _ _ Hsc1 Hsc');
        intros i; cbn beta; lia.
  - exists st. split; [reflexivity |]. split; [lia |]. split; [lia |].
    split; [exact Ho |]. split; [exact Hlen |].
    apply scattered_none. intros i Hi. lia.
Qed.

(** The partially full chunk at the end of the interval. *)
Lemma partial_block_spec lanes rend st :
  lanes ≡ₚ seq 0 CTA_SIZE ->
  0 <= base st <= rend -> rend < base st + Z.of_nat CTA_SIZE ->
  out st = output + count flag 0 (base st) ->
  length (sdata st) = CTA_SIZE ->
  scattered flag elem output (fun i => base st <= i < rend) (mem st)
    (mem (partial_block input_mem stencil_mem input stencil lanes rend st)).
Proof.
  intros Hp Hb Hend Ho Hlen. unfold partial_block.
  destruct (Z.ltb_spec (base st) rend) as [Hlt | Hge].
  - destruct (chunk_spec (base st) rend (partial_predicate stencil_mem stencil (base st) rend)
                (out st) lanes (sdata st) (mem st))
      as (_ & _ & Hsc); auto using partial_predicate_flags.
    replace (Z.min (base st + Z.of_nat CTA_SIZE) rend) with rend in Hsc by lia.
    exact Hsc.
  - apply scattered_none. intros i Hi. lia.
Qed.

(** A whole group, for an interval whose output starts where the
    selected elements before the interval end. *)
Lemma closure_spec offsets decomp fuel sched bidx m :
  let range := decomp_at decomp bidx in
  lane_order sched bidx ≡ₚ seq 0 CTA_SIZE ->
  length (shared_init sched bidx) = CTA_SIZE ->
  0 <= range_begin range <= range_end range ->
  block_output offsets output bidx = output + count flag 0 (range_begin range) ->
  (Z.to_nat (range_end range - range_begin range) < fuel)%nat ->
  exists m',
    closure CTA_SIZE input_mem stencil_mem input stencil offsets decomp output
      fuel sched bidx m = Some m' /\
    scattered flag elem output (fun i => range_begin range <= i < range_end range) m m'.
Proof.
  intros range Hp Hlen Hb Ho Hfuel. unfold closure. fold range.
  match goal with |- context [full_blocks _ _ _ _ _ fuel _ _ ?s] =>
    destruct (full_blocks_spec (lane_order sched bidx) (range_end range) Hp fuel s)
      as (st' & Hrun & Hb' & Hend & Ho' & Hlen' & Hsc')
  end; cbn [base out sdata mem]; auto.
  cbn [base out sdata mem] in *. rewrite Hrun. cbn [mbind option_bind].
  eexists. split; [reflexivity |].
  apply (scattered_ext flag elem output
           (fun i => range_begin range <= i < base st' \/ base st' <= i < range_end range)).
  - intros i. lia.
  - assert (Hsc2 := partial_block_spec (lane_order sched bidx) (range_end range) st'
                      Hp ltac:(lia) Hend Ho' Hlen').
    refine (scattered_trans flag elem output _ _ _ _ _ _ _ _ Hsc' Hsc2);
      intros i; cbn beta; lia.
Qed.

End ClosureFacts.

(** *** The intervals and their offsets *)

Section DecompositionFacts.
Import CopyIf CopyIfSpec.

Variable flag : Z -> Z.
Variable n : Z.
Variable d : decomposition.

Hypothesis flag01 : forall i, flag i = 0 \/ flag i = 1.
Hypothesis Hd : valid_decomposition n d.

Local Abbreviation B g := (range_begin (decomp_at d g)).
Local Abbreviation E g := (range_end (decomp_at d g)).
Let offsets : list Z := inclusive_scan Z.add (reduce_intervals flag d).

Lemma decomp_begin_bounds g : (g < decomp_size d)%nat -> 0 <= B g <= E g.
Proof.
  destruct Hd as (_ & H0 & _ & Hle & Hnext).
  induction g as [| g IH]; intros Hg.
  - specialize (Hle 0%nat Hg). lia.
  - specialize (IH ltac:(lia)). specialize (Hle (S g) Hg). specialize (Hnext g Hg).
    lia.
Qed.

Lemma decomp_end_mono g k : (g + k < decomp_size d)%nat -> E g <= E (g + k).
Proof.
  destruct Hd as (_ & _ & _ & Hle & Hnext).
  induction k as [| k IH]; intros Hg.
  - replace (g + 0)%nat with g by lia. lia.
  - specialize (IH ltac:(lia)). replace (g + S k)%nat with (S (g + k)) by lia.
    specialize (Hle (S (g + k)) ltac:(lia)). specialize (Hnext (g + k)%nat ltac:(lia)).
    lia.
Qed.

Lemma decomp_end_le g : (g < decomp_size d)%nat -> E g <= n.
Proof.
  intros Hg. pose proof (decomp_end_mono g (decomp_size d - 1 - g) ltac:(lia)) as H.
  replace (g + (decomp_size d - 1 - g))%nat with (decomp_size d - 1)%nat in H by lia.
  destruct Hd as (_ & _ & Hn & _). lia.
Qed.

(** Every position below the end of an interval lies in that interval or
    in an earlier one. *)
Lemma decomp_cover g i :
  (g < decomp_size d)%nat -> 0 <= i < E g ->
  exists g', (g' <= g)%nat /\ B g' <= i < E g'.
Proof.
  induction g as [| g IH]; intros Hg Hi.
  - exists 0%nat. destruct Hd as (_ & H0 & _). split; [lia |]. lia.
  - destruct (Z_lt_le_dec i (E g)) as [Hlt | Hge].
    + destruct (IH ltac:(lia) ltac:(lia)) as (g' & Hg' & Hin). exists g'. split; [lia | exact Hin].
    + exists (S g). split; [lia |].
      destruct Hd as (_ & _ & _ & _ & Hnext). specialize (Hnext g Hg). lia.
Qed.

Lemma lookup_reduce_intervals g :
  (g < decomp_size d)%nat ->
  reduce_intervals flag d !! g = Some (count flag (B g) (E g)).
Proof.
  intros Hg. unfold reduce_intervals.
  change (map ?f (seq 0 (decomp_size d))) with (f <$> seq 0 (decomp_size d)).
  rewrite list_lookup_fmap, lookup_seq_lt by exact Hg. cbn [fmap option_fmap option_map Nat.add].
  f_equal. rewrite foldl_add_sumZ.
  pose proof (decomp_begin_bounds g Hg).
  replace (E g - B g) with (Z.of_nat (Z.to_nat (E g - B g))) by lia.
  rewrite (sumZ_flags flag flag01), Z.add_0_l. f_equal. lia.
Qed.

Lemma length_reduce_intervals : length (reduce_intervals flag d) = decomp_size d.
Proof. unfold reduce_intervals. rewrite length_map, length_seq. reflexivity. Qed.

Lemma sum_counts g :
  (g < decomp_size d)%nat ->
  sumZ (take (S g) (reduce_intervals flag d)) = count flag 0 (E g).
Proof.
  induction g as [| g IH]; intros Hg.
  - rewrite (take_S_r _ _ _ (lookup_reduce_intervals 0 Hg)), take_0. cbn [app sumZ].
    destruct Hd as (_ & H0 & _). rewrite H0. lia.
  - rewrite (take_S_r _ _ _ (lookup_reduce_intervals (S g) Hg)).
    rewrite sumZ_app, IH by lia. cbn [sumZ].
    pose proof (decomp_begin_bounds g ltac:(lia)).
    pose proof (decomp_begin_bounds (S g) Hg).
    assert (HE : E g = B (S g)).
    { destruct Hd as (_ & _ & _ & _ & Hnext). apply Hnext. exact Hg. }
    rewrite (count_split flag 0 (E g) (E (S g))) by lia. rewrite HE. lia.
Qed.

(** The scanned counts: slot [g] holds the number of selected positions
    up to the end of interval [g]. *)
Lemma nth_offsets g :
  (g < decomp_size d)%nat -> nth g offsets 0 = count flag 0 (E g).
Proof.
  intros Hg. unfold offsets.
  rewrite nth_inclusive_scan_add by (rewrite length_reduce_intervals; exact Hg).
  apply sum_counts. exact Hg.
Qed.

Lemma last_offset : nth (decomp_size d - 1) offsets 0 = count flag 0 n.
Proof.
  destruct Hd as (Hpos & _ & Hn & _).
  rewrite nth_offsets by lia. rewrite Hn. reflexivity.
Qed.

(** The output of a group starts after the selected elements of the
    earlier groups. *)
Lemma block_output_spec output g :
  (g < decomp_size d)%nat ->
  block_output offsets output g = output + count flag 0 (B g).
Proof.
  intros Hg. unfold block_output. destruct g as [| g]; cbn [Nat.eqb negb].
  - destruct Hd as (_ & H0 & _). rewrite H0, count_empty by lia. lia.
  - replace (S g - 1)%nat with g by lia. rewrite nth_offsets by lia.
    destruct Hd as (_ & _ & _ & _ & Hnext). rewrite (Hnext g Hg). reflexivity.
Qed.

End DecompositionFacts.

(** *** The whole compaction *)

Section CopyIfFacts.
Import CopyIf CopyIfSpec.
Context {T S : Type}.
Variable default_decomposition : Z -> decomposition.
Variable input_mem : Z -> T.
Variable stencil_mem : Z -> S.
Variables first last stencil output : Z.
Variable pred : S -> bool.

Let n : Z := last - first.
Let d : decomposition := default_decomposition n.
Let predicate_stencil (p : Z) : Z := predicate_to_integral pred (stencil_mem p).
Let flag (i : Z) : Z := predicate_stencil (stencil + i).
Let elem (i : Z) : T := input_mem (first + i).
Let offsets : list Z := inclusive_scan Z.add (reduce_intervals flag d).

Lemma predicate_stencil_bit p : predicate_stencil p = 0 \/ predicate_stencil p = 1.
Proof. unfold predicate_stencil, predicate_to_integral. destruct (pred _); auto. Qed.

Lemma flag_bit i : flag i = 0 \/ flag i = 1.
Proof. apply predicate_stencil_bit. Qed.

Lemma selected_kept : selected flag 0 n = kept pred stencil_mem stencil n.
Proof.
  unfold selected, kept. rewrite Z.sub_0_r. apply list_filter_iff. intros i.
  unfold flag, predicate_stencil, predicate_to_integral.
  destruct (pred (stencil_mem (stencil + i))); split; intros H; congruence.
Qed.

(** The groups of a launch, one after the other in any order. *)
Lemma launch_spec fuel sched :
  valid_decomposition n d ->
  (forall b, lane_order sched b ≡ₚ seq 0 ThreadsPerBlock) ->
  (forall b, length (shared_init sched b) = ThreadsPerBlock) ->
  (Z.to_nat n < fuel)%nat ->
  forall blocks, (forall g, g ∈ blocks -> (g < decomp_size d)%nat) ->
  forall m,
  exists m',
    launch_closure
      (closure ThreadsPerBlock input_mem predicate_stencil first stencil offsets d output
         fuel sched) blocks m = Some m' /\
    scattered flag elem output
      (fun i => Exists (fun g => range_begin (decomp_at d g) <= i < range_end (decomp_at d g))
                  blocks) m m'.
Proof.
  intros Hd Hlanes Hshared Hfuel.
  induction blocks as [| g blocks IH]; intros Hlt m.
  - exists m. split; [reflexivity |]. apply scattered_none. intros i Hi. inversion Hi.
  - assert (Hg : (g < decomp_size d)%nat) by (apply Hlt; left).
    pose proof (decomp_begin_bounds n d Hd g Hg) as Hb.
    pose proof (decomp_end_le n d Hd g Hg) as He.
    assert (Hf : (Z.to_nat (range_end (decomp_at d g) - range_begin (decomp_at d g))
                  < fuel)%nat) by lia.
    assert (Hpos : (0 < ThreadsPerBlock)%nat) by (unfold ThreadsPerBlock; lia).
    assert (Hu32 : Z.of_nat ThreadsPerBlock < 2 ^ 32) by reflexivity.
    destruct (closure_spec ThreadsPerBlock input_mem predicate_stencil first stencil output
                predicate_stencil_bit Hpos Hu32
                offsets d fuel sched g m (Hlanes g) (Hshared g) Hb
                (block_output_spec flag n d flag_bit Hd output g Hg) Hf)
      as (m1 & Hrun1 & Hsc1).
    destruct (IH (fun g' Hin => Hlt g' (list_elem_of_further _ _ _ Hin)) m1)
      as (m2 & Hrun2 & Hsc2).
    exists m2. split.
    { cbn [launch_closure]. rewrite Hrun1. cbn [mbind option_bind]. exact Hrun2. }
    apply (scattered_ext flag elem output
             (fun i => range_begin (decomp_at d g) <= i < range_end (decomp_at d g)
                       \/ Exists (fun g => range_begin (decomp_at d g) <= i
                                           < range_end (decomp_at d g)) blocks)).
    + intros i. rewrite Exists_cons. reflexivity.
    + refine (scattered_trans flag elem output _ _ _ _ _ _ _ _ Hsc1 Hsc2); intros i; cbn beta.
      * lia.
      * intros Hi. apply Exists_exists in Hi as (g' & Hin & Hi).
        pose proof (decomp_begin_bounds n d Hd g' (Hlt g' (list_elem_of_further _ _ _ Hin))). lia.
      * destruct (decide (Exists (fun g => range_begin (decomp_at d g) <= i
                                           < range_end (decomp_at d g)) blocks)); auto.
Qed.

(** [copy_if] returns, with the compacted input written from [output]
    on and the end of what it has written as its result. *)
Lemma copy_if_run fuel sched m :
  first <= last ->
  (first < last -> valid_decomposition n d) ->
  valid_schedule (decomp_size d) ThreadsPerBlock sched ->
  (Z.to_nat n < fuel)%nat ->
  exists m',
    copy_if default_decomposition fuel sched input_mem stencil_mem
      first last stencil output pred m = Some (m', output + count flag 0 n) /\
    compacted_into flag elem output n m m'.
Proof.
  intros Hle Hd (Hblocks & Hlanes & Hshared) Hfuel. unfold copy_if.
  destruct (Z.eqb_spec first last) as [Heq | Hne].
  - exists m. assert (Hn : n = 0) by (unfold n; lia). rewrite Hn.
    rewrite count_empty by lia. rewrite Z.add_0_r. split; [reflexivity |].
    split; [| reflexivity]. intros j x Hj. unfold compacted in Hj.
    rewrite selected_empty in Hj by lia. discriminate Hj.
  - specialize (Hd ltac:(lia)).
    destruct (launch_spec fuel sched Hd Hlanes Hshared Hfuel (block_order sched)) with (m := m)
      as (m' & Hrun & Hsc).
    { intros g Hg. rewrite Hblocks in Hg. apply elem_of_seq in Hg. lia. }
    exists m'. split.
    + cbv zeta.
      match goal with |- context [launch_closure ?c ?b ?m0] =>
        replace (launch_closure c b m0) with (Some m') by (symmetry; exact Hrun)
      end.
      cbn [mbind option_bind]. do 3 f_equal.
      exact (last_offset flag n d flag_bit Hd).
    + apply scattered_compacted. eapply scattered_ext; [| exact Hsc].
      intros i. rewrite Exists_exists. split.
      * intros (g & Hg & Hi). rewrite Hblocks in Hg. apply elem_of_seq in Hg.
        pose proof (decomp_begin_bounds n d Hd g ltac:(lia)).
        pose proof (decomp_end_le n d Hd g ltac:(lia)). lia.
      * intros Hi. destruct Hd as (Hpos & H0 & Hn & Hrest) eqn:Ed.
        destruct (decomp_cover n d (conj Hpos (conj H0 (conj Hn Hrest)))
                    (decomp_size d - 1) i ltac:(lia) ltac:(lia)) as (g & Hg & Hin).
        exists g. split; [| exact Hin]. rewrite Hblocks. apply elem_of_seq. lia.
Qed.

End CopyIfFacts.

(** *** Decompositions and schedules of the examples *)

Section ExampleFacts.
Import CopyIf CopyIfSpec.

Lemma chunks_of_valid width n :
  0 < width -> 0 < n -> valid_decomposition n (chunks_of width n).
Proof.
  intros Hw Hn. unfold valid_decomposition, chunks_of. cbn [decomp_size decomp_at range_begin range_end].
  assert (Hk : 1 <= (n + width - 1) / width).
  { apply Z.div_le_lower_bound; lia. }
  assert (Hup : n <= width * ((n + width - 1) / width)).
  { pose proof (Z.mod_pos_bound (n + width - 1) width Hw).
    pose proof (Z.div_mod (n + width - 1) width ltac:(lia)). lia. }
  split; [lia |]. split; [lia |]. split; [| split].
  - replace (Z.of_nat (Z.to_nat ((n + width - 1) / width) - 1))
      with ((n + width - 1) / width - 1) by lia. lia.
  - intros g _. lia.
  - intros g _. lia.
Qed.

Lemma forwards_valid groups lanes : valid_schedule groups lanes (forwards groups lanes).
Proof.
  unfold valid_schedule, forwards. cbn [block_order lane_order shared_init].
  split; [reflexivity |]. split; [reflexivity |]. intros _. apply length_replicate.
Qed.

Lemma backwards_valid groups lanes junk :
  valid_schedule groups lanes (backwards groups lanes junk).
Proof.
  unfold valid_schedule, backwards. cbn [block_order lane_order shared_init].
  split; [symmetry; apply Permutation_rev |].
  split; [intros _; symmetry; apply Permutation_rev |]. intros _. apply length_replicate.
Qed.

End ExampleFacts.

(** *** The claims about stream compaction *)

Section CopyIfClaims.
Import CopyIf CopyIfSpec.

(** C1.  For an input range [first, last), a stencil and a predicate,
    [copy_if] returns, whatever the order of the groups and of their lanes:
    the memory then holds from [output] on, in their order in the input,
    exactly the input elements at the positions whose stencil element
    satisfies the predicate, and is unchanged everywhere else. *)
Theorem copy_if_compacts {T S} (default_decomposition : Z -> decomposition)
    (fuel : nat) (sched : schedule) (input_mem : Z -> T) (stencil_mem : Z -> S)
    (first last stencil output : Z) (pred : S -> bool) (m : out_memory) :
  first <= last ->
  (first < last ->
   valid_decomposition (last - first) (default_decomposition (last - first))) ->
  valid_schedule (decomp_size (default_decomposition (last - first))) ThreadsPerBlock sched ->
  (Z.to_nat (last - first) < fuel)%nat ->
  exists m' r,
    copy_if default_decomposition fuel sched input_mem stencil_mem
      first last stencil output pred m = Some (m', r) /\
    holds_from m' output
      (map (fun i => input_mem (first + i)) (kept pred stencil_mem stencil (last - first))) /\
    unchanged_outside m m' output
      (output + Z.of_nat (length (kept pred stencil_mem stencil (last - first)))).
Proof.
  intros Hle Hd Hs Hfuel.
  destruct (copy_if_run default_decomposition input_mem stencil_mem first last stencil output
              pred fuel sched m Hle Hd Hs Hfuel) as (m' & Hrun & Hw & Hf).
  exists m'. eexists. split; [exact Hrun |].
  rewrite <- (selected_kept stencil_mem first last stencil pred).
  split; [exact Hw | exact Hf].
Qed.

Lemma copy_if_compacts_witness :
  exists m' r,
    copy_if (chunks_of 3) 8 (backwards 3 ThreadsPerBlock 5) example_input example_stencil
      0 7 0 100 nonzero blank = Some (m', r) /\
    holds_from m' 100
      (map (fun i => example_input (0 + i)) (kept nonzero example_stencil 0 (7 - 0))) /\
    unchanged_outside blank m' 100
      (100 + Z.of_nat (length (kept nonzero example_stencil 0 (7 - 0)))).
Proof.
  apply copy_if_compacts.
  - lia.
  - intros _. apply chunks_of_valid; lia.
  - apply backwards_valid.
  - lia.
Defined.

(** C2.  [copy_if] returns [output + k], where [k] is the number of
    positions of [first, last) whose stencil element satisfies the
    predicate, for every size of the input; for a non-empty input [k] is
    the last of the scanned counts of the groups; and for [first = last] it
    returns [output] at once, with the memory as it was, without any fuel
    and whatever the schedule. *)
Theorem copy_if_returns_count {T S} (default_decomposition : Z -> decomposition)
    (fuel : nat) (sched : schedule) (input_mem : Z -> T) (stencil_mem : Z -> S)
    (first last stencil output : Z) (pred : S -> bool) (m : out_memory) :
  first <= last ->
  (first < last ->
   valid_decomposition (last - first) (default_decomposition (last - first))) ->
  valid_schedule (decomp_size (default_decomposition (last - first))) ThreadsPerBlock sched ->
  (Z.to_nat (last - first) < fuel)%nat ->
  let k := Z.of_nat (length (kept pred stencil_mem stencil (last - first))) in
  let d := default_decomposition (last - first) in
  (exists m',
     copy_if default_decomposition fuel sched input_mem stencil_mem
       first last stencil output pred m = Some (m', output + k)) /\
  (first < last ->
   nth (decomp_size d - 1)
     (inclusive_scan Z.add
        (reduce_intervals
           (fun i => predicate_to_integral pred (stencil_mem (stencil + i))) d)) 0 = k) /\
  (first = last ->
   forall fuel' sched',
     copy_if default_decomposition fuel' sched' input_mem stencil_mem
       first last stencil output pred m = Some (m, output)).
Proof.
  intros Hle Hd Hs Hfuel k d. subst k d.
  rewrite <- (selected_kept stencil_mem first last stencil pred).
  split; [| split].
  - destruct (copy_if_run default_decomposition input_mem stencil_mem first last stencil output
                pred fuel sched m Hle Hd Hs Hfuel) as (m' & Hrun & _).
    exists m'. exact Hrun.
  - intros Hlt.
    apply (last_offset (fun i => predicate_to_integral pred (stencil_mem (stencil + i)))
             (last - first) (default_decomposition (last - first))
             (flag_bit stencil_mem stencil pred) (Hd Hlt)).
  - intros Heq fuel' sched'. unfold copy_if. rewrite Heq, Z.eqb_refl. reflexivity.
Qed.

Lemma copy_if_returns_count_witness :
  let k := Z.of_nat (length (kept nonzero example_stencil 0 (7 - 0))) in
  let d := chunks_of 3 (7 - 0) in
  (exists m',
     copy_if (chunks_of 3) 8 (forwards 3 ThreadsPerBlock) example_input example_stencil
       0 7 0 100 nonzero blank = Some (m', 100 + k)) /\
  (0 < 7 ->
   nth (decomp_size d - 1)
     (inclusive_scan Z.add
        (reduce_intervals
           (fun i => predicate_to_integral nonzero (example_stencil (0 + i))) d)) 0 = k) /\
  (0 = 7 ->
   forall fuel' sched',
     copy_if (chunks_of 3) fuel' sched' example_input example_stencil
       0 7 0 100 nonzero blank = Some (blank, 100)).
Proof.
  apply copy_if_returns_count.
  - lia.
  - intros _. apply chunks_of_valid; lia.
  - apply forwards_valid.
  - lia.
Defined.

(** C8.  Two runs of [copy_if] on the same input, stencil, predicate and
    output memory, with any two orders of the groups and of their lanes,
    any two initial contents of the shared arrays and any two sufficient
    amounts of fuel, return the same iterator and leave the same memory. *)
Theorem copy_if_deterministic {T S} (default_decomposition : Z -> decomposition)
    (fuel1 fuel2 : nat) (sched1 sched2 : schedule)
    (input_mem : Z -> T) (stencil_mem : Z -> S)
    (first last stencil output : Z) (pred : S -> bool) (m : out_memory) :
  first <= last ->
  (first < last ->
   valid_decomposition (last - first) (default_decomposition (last - first))) ->
  valid_schedule (decomp_size (default_decomposition (last - first))) ThreadsPerBlock sched1 ->
  valid_schedule (decomp_size (default_decomposition (last - first))) ThreadsPerBlock sched2 ->
  (Z.to_nat (last - first) < fuel1)%nat ->
  (Z.to_nat (last - first) < fuel2)%nat ->
  exists m1 m2 r,
    copy_if default_decomposition fuel1 sched1 input_mem stencil_mem
      first last stencil output pred m = Some (m1, r) /\
    copy_if default_decomposition fuel2 sched2 input_mem stencil_mem
      first last stencil output pred m = Some (m2, r) /\
    (forall p, m1 p = m2 p).
Proof.
  intros Hle Hd Hs1 Hs2 Hf1 Hf2.
  destruct (copy_if_run default_decomposition input_mem stencil_mem first last stencil output
              pred fuel1 sched1 m Hle Hd Hs1 Hf1) as (m1 & Hrun1 & Hc1).
  destruct (copy_if_run default_decomposition input_mem stencil_mem first last stencil output
              pred fuel2 sched2 m Hle Hd Hs2 Hf2) as (m2 & Hrun2 & Hc2).
  exists m1, m2. eexists. split; [exact Hrun1 |]. split; [exact Hrun2 |].
  intros p. exact (compacted_into_unique _ _ _ _ _ _ _ p Hc1 Hc2).
Qed.

Lemma copy_if_deterministic_witness :
  exists m1 m2 r,
    copy_if (chunks_of 3) 8 (forwards 3 ThreadsPerBlock) example_input example_stencil
      0 7 0 100 nonzero blank = Some (m1, r) /\
    copy_if (chunks_of 3) 20 (backwards 3 ThreadsPerBlock 7) example_input example_stencil
      0 7 0 100 nonzero blank = Some (m2, r) /\
    (forall p, m1 p = m2 p).
Proof.
  apply copy_if_deterministic.
  - lia.
  - intros _. apply chunks_of_valid; lia.
  - apply forwards_valid.
  - apply backwards_valid.
  - lia.
  - lia.
Defined.

End CopyIfClaims.

(** *** The offsets of the groups and the last chunk *)

Section ScatterPassClaims.
Import CopyIf CopyIfSpec.

Lemma selected_by_pred {U} (pred : U -> bool) (stencil_mem : Z -> U) (stencil lo hi : Z) :
  selected (fun i => predicate_to_integral pred (stencil_mem (stencil + i))) lo hi
  = kept_in pred stencil_mem stencil lo hi.
Proof.
  unfold selected, kept_in. apply list_filter_iff. intros i. unfold predicate_to_integral.
  destruct (pred (stencil_mem (stencil + i))); split; intros H; congruence.
Qed.

Lemma count_by_pred {U} (pred : U -> bool) (stencil_mem : Z -> U) (stencil lo hi : Z) :
  count (fun i => predicate_to_integral pred (stencil_mem (stencil + i))) lo hi
  = Z.of_nat (length (kept_in pred stencil_mem stencil lo hi)).
Proof. unfold count. rewrite selected_by_pred. reflexivity. Qed.

Lemma kept_in_from_0 {U} (pred : U -> bool) (stencil_mem : Z -> U) (stencil n : Z) :
  kept_in pred stencil_mem stencil 0 n = kept pred stencil_mem stencil n.
Proof. unfold kept_in, kept. rewrite Z.sub_0_r. reflexivity. Qed.



Lemma read_data_ext lanes g g' : forall sd,
  (forall t, t ∈ lanes -> g t = g' t) -> read_data lanes g sd = read_data lanes g' sd.
Proof.
  unfold read_data. induction lanes as [| t lanes IH]; intros sd H; [reflexivity |].
  cbn [foldl]. rewrite (H t ltac:(left)). apply IH. intros t' Ht'. apply H. right. exact Ht'.
Qed.

Lemma write_data_ext {T} (input_mem : Z -> T) input lanes g g' sd b o : forall m,
  (forall t, t ∈ lanes -> g t = g' t) ->
  write_data input_mem input lanes g sd b o m = write_data input_mem input lanes g' sd b o m.
Proof.
  unfold write_data. induction lanes as [| t lanes IH]; intros m H; [reflexivity |].
  cbn [foldl]. unfold write_lane at 2 4. rewrite (H t ltac:(left)).
  apply IH. intros t' Ht'. apply H. right. exact Ht'.
Qed.

(** C4.  In the chunk at the end of an interval, a lane whose position is
    at or beyond the end of the interval has predicate 0, stores 0 in its
    slot of the shared array before the scan, and writes nothing; the chunk
    is the same for any two stencils that agree below the end of the
    interval.  For an input of [ThreadsPerBlock + 1] elements whose stencil
    is false up to the last element and true from there on, also beyond the
    end, exactly the last element is written and [output + 1] returned. *)
Theorem partial_block_masks_lanes_beyond_end {T} (CTA_SIZE : nat) (input_mem : Z -> T)
    (stencil_mem : Z -> Z) (input stencil : Z) (lanes : list nat) (rend : Z)
    (st : block_state) (t : nat) :
  lanes ≡ₚ seq 0 CTA_SIZE -> length (sdata st) = CTA_SIZE -> (t < CTA_SIZE)%nat ->
  rend <= base st + Z.of_nat t ->
  partial_predicate stencil_mem stencil (base st) rend t = 0 /\
  nth t (read_data lanes (partial_predicate stencil_mem stencil (base st) rend) (sdata st)) 1
    = 0 /\
  (forall sd o m,
     write_lane input_mem input (partial_predicate stencil_mem stencil (base st) rend)
       sd (base st) o m t = m) /\
  (forall stencil_mem' : Z -> Z,
     (forall i, i < rend -> stencil_mem' (stencil + i) = stencil_mem (stencil + i)) ->
     partial_block input_mem stencil_mem' input stencil lanes rend st
     = partial_block input_mem stencil_mem input stencil lanes rend st) /\
  match copy_if (chunks_of 1000) 3 (forwards 1 ThreadsPerBlock) (fun p => p) late_stencil
          0 (Z.of_nat ThreadsPerBlock + 1) 0 1000 nonzero blank with
  | Some (m', r) => r = 1001 /\ m' 1000 = Z.of_nat ThreadsPerBlock /\ m' 1001 = blank 1001
  | None => False
  end.
Proof.
  intros Hp Hlen Ht Hend.
  assert (H0 : partial_predicate stencil_mem stencil (base st) rend t = 0).
  { unfold partial_predicate. destruct (Z.ltb_spec (base st + Z.of_nat t) rend); [lia | reflexivity]. }
  split; [exact H0 |]. split; [| split; [| split]].
  - apply nth_lookup_Some. rewrite lookup_read_data by lia.
    destruct (decide (t ∈ lanes)) as [_ | Hn]; [rewrite H0; reflexivity |].
    exfalso. apply Hn. rewrite Hp. apply elem_of_seq. lia.
  - intros sd o m. unfold write_lane. rewrite H0. reflexivity.
  - intros stencil_mem' Hagree.
    assert (Hext : forall t', partial_predicate stencil_mem' stencil (base st) rend t'
                              = partial_predicate stencil_mem stencil (base st) rend t').
    { intros t'. unfold partial_predicate.
      destruct (Z.ltb_spec (base st + Z.of_nat t') rend); [| reflexivity].
      rewrite Hagree by lia. reflexivity. }
    unfold partial_block. destruct (base st <? rend); [| reflexivity].
    rewrite (read_data_ext lanes _ _ (sdata st) (fun t' _ => Hext t')).
    rewrite (write_data_ext input_mem input lanes _ _ _ (base st) (out st) (mem st)
               (fun t' _ => Hext t')).
    reflexivity.
  - vm_compute. repeat split.
Qed.

Lemma partial_block_masks_lanes_beyond_end_witness :
  let st := {| base := 4; out := 100; sdata := [9; 9; 9; 9]; mem := blank |} in
  partial_predicate example_stencil 0 (base st) 7 3 = 0 /\
  nth 3 (read_data (rev (seq 0 4)) (partial_predicate example_stencil 0 (base st) 7) (sdata st)) 1
    = 0 /\
  (forall sd o m,
     write_lane example_input 0 (partial_predicate example_stencil 0 (base st) 7)
       sd (base st) o m 3 = m) /\
  (forall stencil_mem' : Z -> Z,
     (forall i, i < 7 -> stencil_mem' (0 + i) = example_stencil (0 + i)) ->
     partial_block example_input stencil_mem' 0 0 (rev (seq 0 4)) 7 st
     = partial_block example_input example_stencil 0 0 (rev (seq 0 4)) 7 st) /\
  match copy_if (chunks_of 1000) 3 (forwards 1 ThreadsPerBlock) (fun p => p) late_stencil
          0 (Z.of_nat ThreadsPerBlock + 1) 0 1000 nonzero blank with
  | Some (m', r) => r = 1001 /\ m' 1000 = Z.of_nat ThreadsPerBlock /\ m' 1001 = blank 1001
  | None => False
  end.
Proof.
  apply (partial_block_masks_lanes_beyond_end 4 example_input example_stencil 0 0
           (rev (seq 0 4)) 7 {| base := 4; out := 100; sdata := [9; 9; 9; 9]; mem := blank |} 3).
  - symmetry. apply Permutation_rev.
  - reflexivity.
  - lia.
  - simpl. lia.
Defined.

End ScatterPassClaims.

(** ** Range end *)

Section RangeClaims.
Import Range.

(** C10.  For a built-in array [a], const or not, [end(a)] is the pointer
    [a + sz], where [sz] is the number of elements of the array: it lies
    past the address of every element, it is one past the address of the
    last element when there is one, it is [a] itself when the array is
    empty, and no element of the array lives at it.  For a range with an
    [end()] member, [end(r)] is [r.end()]; for a range made of two
    iterators that is the second one. *)
Theorem end_is_one_past_the_last {T R I} `{HasEnd R I} (a : array T) (r : R) :
  end_array a = ptr_add (decay a) (Z.of_nat (length (elems a))) /\
  end_const_array a = ptr_add (decay a) (Z.of_nat (length (elems a))) /\
  (forall i x, elems a !! i = Some x -> address_of a (Z.of_nat i) < end_array a) /\
  (forall x, last (elems a) = Some x ->
     end_array a = ptr_add (address_of a (Z.of_nat (length (elems a) - 1))) 1) /\
  (elems a = [] -> end_array a = decay a) /\
  elems a !! Z.to_nat (end_array a - decay a) = None /\
  end_ r = member_end r /\
  (forall b e, end_ (IteratorRange b e) = e).
Proof.
  unfold end_array, end_const_array, address_of, ptr_add, end_, extent.
  split; [reflexivity |]. split; [reflexivity |]. split; [| split; [| split; [| split]]].
  - intros i x Hi. apply lookup_lt_Some in Hi. lia.
  - intros x Hx. destruct (elems a) as [| y l]; [discriminate |]. cbn [length]. lia.
  - intros ->. cbn [length]. lia.
  - apply lookup_ge_None_2. lia.
  - split; reflexivity.
Qed.

End RangeClaims.

(* ===================================================================== *)
(** * Part IV: further properties                                         *)
(* ===================================================================== *)

(** ** Block-level copy *)

Section BlockCopyFurther.
Import Block BlockSpec.

(** For a [size_t] dividend and a positive divisor,
    [quotient_and_remainder] returns the quotient and the remainder of the
    division: the subtraction and the product do not wrap. *)
Theorem quotient_and_remainder_divides n d :
  0 <= n < 2 ^ 64 -> 0 < d ->
  fst (quotient_and_remainder n d) = n / d /\
  snd (quotient_and_remainder n d) = n mod d /\
  n = d * fst (quotient_and_remainder n d) + snd (quotient_and_remainder n d) /\
  0 <= snd (quotient_and_remainder n d) < d.
Proof.
  intros Hn Hd. rewrite quotient_and_remainder_spec by assumption. cbn [fst snd].
  pose proof (Z.div_mod n d ltac:(lia)). pose proof (Z.mod_pos_bound n d Hd).
  repeat split; lia.
Qed.

Lemma quotient_and_remainder_divides_witness :
  fst (quotient_and_remainder 27 8) = 27 / 8 /\
  snd (quotient_and_remainder 27 8) = 27 mod 8 /\
  27 = 8 * fst (quotient_and_remainder 27 8) + snd (quotient_and_remainder 27 8) /\
  0 <= snd (quotient_and_remainder 27 8) < 8.
Proof. apply quotient_and_remainder_divides; lia. Defined.

(** As long as the byte count plus the group size does not exceed 2^32,
    [trivial_copy] run by all lanes of a group, in any order, returns and
    leaves the [n] source bytes in the destination and every other byte as
    it was, whether the two addresses are aligned or not. *)
Theorem trivial_copy_copies_below_wrap fuel bdim lanes dst src n mem0 :
  schedule_of bdim lanes ->
  (0 < bdim)%nat -> 0 <= n -> n + Z.of_nat bdim <= 2 ^ 32 ->
  (Z.to_nat n < fuel)%nat ->
  disjoint_ranges dst src n ->
  exists m' rs,
    group_trivial_copy fuel bdim lanes dst src n mem0 = Some (m', rs) /\
    copied mem0 m' dst src n.
Proof. apply trivial_copy_correct. Qed.

Lemma trivial_copy_copies_below_wrap_witness :
  exists m' rs,
    group_trivial_copy 30 4 (rev (seq 0 4)) 64 3 27 (two_tone 40) = Some (m', rs) /\
    copied (two_tone 40) m' 64 3 27.
Proof.
  apply trivial_copy_copies_below_wrap.
  - unfold schedule_of. symmetry. apply Permutation_rev.
  - lia.
  - lia.
  - lia.
  - lia.
  - unfold disjoint_ranges. lia.
Defined.

(** The strided loop touches no byte outside the elements it visits. *)
Lemma strided_loop_frame W stride bound dst src :
  0 < stride -> bound + stride <= 2 ^ 32 ->
  forall fuel i m m',
    0 <= i ->
    strided_loop W fuel i bound stride dst src m = Some m' ->
    forall a,
      (forall j, i <= j < bound -> (j - i) mod stride = 0 ->
                 ~ (dst + W * j <= a < dst + W * j + W)) ->
      m' a = m a.
Proof.
  intros Hst Hwrap. induction fuel as [| fuel IH]; intros i m m' Hi Hrun a Ha; [discriminate |].
  cbn [strided_loop] in Hrun. destruct (Z.ltb_spec i bound) as [Hlt | Hge].
  - rewrite u32_small in Hrun by lia.
    rewrite (IH (i + stride) _ _ ltac:(lia) Hrun a).
    + unfold copy_elem.
      destruct (Z.leb_spec (dst + W * i) a); destruct (Z.ltb_spec a (dst + W * i + W));
        cbn [andb]; try reflexivity.
      exfalso. apply (Ha i); [lia | rewrite Z.sub_diag; apply Z.mod_0_l; lia | lia].
    + intros j Hj Hmod. apply Ha; [lia |].
      replace (j - i) with (j - (i + stride) + 1 * stride) by lia.
      rewrite Z.mod_add by lia. exact Hmod.
  - injection Hrun as <-. reflexivity.
Qed.

Lemma mod_of_stride k tid bdim :
  0 <= tid < bdim -> (k - tid) mod bdim = 0 -> k mod bdim = tid.
Proof.
  intros Ht Hmod. apply Z.mod_divide in Hmod; [| lia]. destruct Hmod as [c Hc].
  replace k with (tid + c * bdim) by lia. rewrite Z.mod_add by lia. apply Z.mod_small. lia.
Qed.

(** A lane of [trivial_copy] leaves the destination bytes of the other
    lanes as they are. *)
Lemma trivial_copy_lane_frame fuel ctx dst src n m m' k :
  0 <= n -> n + block_dimension ctx <= 2 ^ 32 ->
  0 <= thread_index ctx < block_dimension ctx ->
  trivial_copy fuel ctx dst src n m = Some m' ->
  0 <= k < n ->
  lane_of_byte (block_dimension ctx) dst src n k <> thread_index ctx ->
  m' (dst + k) = m (dst + k).
Proof.
  intros Hn Hwrap Htid. set (tid := thread_index ctx) in *. set (bdim := block_dimension ctx) in *.
  unfold trivial_copy, lane_of_byte. fold tid bdim. rewrite (u32_small tid) by lia.
  destruct (negb (usize dst mod sizeof_uint2 =? 0) || negb (usize src mod sizeof_uint2 =? 0)).
  - intros Hrun Hk Hlane.
    apply (strided_loop_frame 1 bdim n dst src ltac:(lia) ltac:(lia) fuel tid m m' ltac:(lia) Hrun).
    intros j Hj Hmod Hin. assert (j = k) as -> by lia.
    apply Hlane. apply mod_of_stride; [lia | exact Hmod].
  - rewrite quotient_and_remainder_spec by (unfold sizeof_int2; lia).
    unfold sizeof_int2 in *. cbn [fst snd]. unfold aligned_copy. fold tid bdim.
    assert (Hq : 0 <= n / 8 <= n).
    { split; [apply Z.div_pos; lia |]. apply Z.div_le_upper_bound; lia. }
    assert (Hr : 0 <= n mod 8 < 8) by (apply Z.mod_pos_bound; lia).
    assert (Hqr : n = 8 * (n / 8) + n mod 8) by (apply Z.div_mod; lia).
    rewrite (u32_small tid) by lia.
    rewrite (u32_small (n / 8)) by lia.
    rewrite (u32_small (n mod 8)) by lia.
    rewrite (usize_small (8 * (n / 8))) by lia.
    intros Hrun Hk. apply bind_Some in Hrun as (m1 & Hrun1 & Hrun2).
    pose proof (strided_loop_frame 8 bdim (n / 8) dst src ltac:(lia) ltac:(lia)
                  fuel tid m m1 ltac:(lia) Hrun1 (dst + k)) as F1.
    pose proof (strided_loop_frame 1 bdim (n mod 8) (dst + 8 * (n / 8)) (src + 8 * (n / 8))
                  ltac:(lia) ltac:(lia) fuel tid m1 m' ltac:(lia) Hrun2 (dst + k)) as F2.
    destruct (Z.ltb_spec k (8 * (n / 8))) as [Hw | Hb]; intros Hlane.
    + rewrite F2, F1; [reflexivity | |].
      * intros j Hj Hmod Hin. apply Hlane.
        assert (k / 8 = j) as ->.
        { symmetry. apply (Z.div_unique k 8 j (k - 8 * j)); lia. }
        apply mod_of_stride; [lia | exact Hmod].
      * intros j Hj Hmod Hin. lia.
    + rewrite F2, F1; [reflexivity | |].
      * intros j Hj Hmod Hin. lia.
      * intros j Hj Hmod Hin. apply Hlane.
        assert (k - 8 * (n / 8) = j) as -> by lia.
        apply mod_of_stride; [lia | exact Hmod].
Qed.

(** As long as no counter can wrap, one lane of [trivial_copy] on its own
    returns and has copied exactly the bytes that fall to it: lane [t]
    takes the bytes [t], [t + groupSize], ... when an address is
    misaligned, and the wide elements [t], [t + groupSize], ... followed by
    the remainder bytes [t], [t + groupSize], ... when both are aligned.
    Every other byte is as it was. *)
Theorem trivial_copy_lane_copies_its_share fuel ctx dst src n mem0 :
  disjoint_ranges dst src n ->
  0 <= n -> n + block_dimension ctx <= 2 ^ 32 ->
  0 <= thread_index ctx < block_dimension ctx ->
  (Z.to_nat n < fuel)%nat ->
  exists m',
    trivial_copy fuel ctx dst src n mem0 = Some m' /\
    (forall k, 0 <= k < n ->
       m' (dst + k)
       = if lane_of_byte (block_dimension ctx) dst src n k =? thread_index ctx
         then mem0 (src + k) else mem0 (dst + k)) /\
    (forall a, ~ (dst <= a < dst + n) -> m' a = mem0 a).
Proof.
  intros Hdisj Hn Hwrap Htid Hfuel.
  destruct (trivial_copy_lane mem0 dst src n Hdisj fuel ctx mem0 Hn Hwrap Htid Hfuel)
    as (m' & Hrun & Hs & _ & Hcov).
  { intros a. left. reflexivity. }
  exists m'. split; [exact Hrun |]. split.
  - intros k Hk.
    destruct (Z.eqb_spec (lane_of_byte (block_dimension ctx) dst src n k) (thread_index ctx))
      as [E | Hne].
    + apply Hcov; assumption.
    + eapply trivial_copy_lane_frame; eauto.
  - intros a Ha. destruct (Hs a) as [E | [Hr _]]; [exact E | lia].
Qed.

Lemma trivial_copy_lane_copies_its_share_witness :
  exists m',
    trivial_copy 30 (Context 1 4 0) 64 8 27 (two_tone 40) = Some m' /\
    (forall k, 0 <= k < 27 ->
       m' (64 + k)
       = if lane_of_byte (block_dimension (Context 1 4 0)) 64 8 27 k
            =? thread_index (Context 1 4 0)
         then two_tone 40 (8 + k) else two_tone 40 (64 + k)) /\
    (forall a, ~ (64 <= a < 64 + 27) -> m' a = two_tone 40 a).
Proof.
  apply trivial_copy_lane_copies_its_share.
  - unfold disjoint_ranges. lia.
  - lia.
  - simpl. lia.
  - simpl. lia.
  - lia.
Defined.

End BlockCopyFurther.

Section BlockCopyEdges.
Import Block BlockSpec.

Lemma strided_loop_self W stride bound d :
  forall fuel i m m',
    strided_loop W fuel i bound stride d d m = Some m' -> forall a, m' a = m a.
Proof.
  induction fuel as [| fuel IH]; intros i m m' Hrun a; [discriminate |].
  cbn [strided_loop] in Hrun. destruct (i <? bound).
  - rewrite (IH _ _ _ Hrun a). unfold copy_elem.
    destruct ((d + W * i <=? a) && (a <? d + W * i + W)); [f_equal; lia | reflexivity].
  - injection Hrun as <-. reflexivity.
Qed.

(** Copying a range onto itself changes nothing: whenever a lane of
    [trivial_copy] returns from a call with equal source and destination,
    every byte is as before, for every byte count and alignment. *)
Theorem trivial_copy_onto_itself fuel ctx p n m m' :
  trivial_copy fuel ctx p p n m = Some m' -> forall a, m' a = m a.
Proof.
  unfold trivial_copy.
  destruct (negb (usize p mod sizeof_uint2 =? 0) || negb (usize p mod sizeof_uint2 =? 0)).
  - apply strided_loop_self.
  - unfold aligned_copy. intros Hrun a. apply bind_Some in Hrun as (m1 & Hrun1 & Hrun2).
    rewrite (strided_loop_self _ _ _ _ _ _ _ _ Hrun2 a).
    apply (strided_loop_self _ _ _ _ _ _ _ _ Hrun1 a).
Qed.

Lemma trivial_copy_onto_itself_witness :
  exists m',
    trivial_copy 9 (Context 1 2 0) 16 16 11 (two_tone 20) = Some m' /\
    forall a, m' a = two_tone 20 a.
Proof.
  eexists. split; [reflexivity |].
  apply (trivial_copy_onto_itself 9 (Context 1 2 0) 16 11 (two_tone 20)). reflexivity.
Defined.

Lemma trivial_copy_nothing fuel ctx dst src m :
  trivial_copy (S fuel) ctx dst src 0 m = Some m.
Proof.
  assert (Hlane : (u32 (thread_index ctx) <? 0) = false).
  { apply Z.ltb_ge. unfold u32. apply Z.mod_pos_bound. lia. }
  unfold trivial_copy.
  destruct (negb (usize dst mod sizeof_uint2 =? 0) || negb (usize src mod sizeof_uint2 =? 0)).
  - cbn [strided_loop]. rewrite Hlane. reflexivity.
  - change (quotient_and_remainder 0 sizeof_int2) with (0, 0). cbn [fst snd].
    unfold aligned_copy. change (u32 0) with 0. cbn [strided_loop]. rewrite Hlane.
    reflexivity.
Qed.

(** A copy of zero bytes returns at once and changes nothing, for every
    lane, alignment and pair of addresses. *)
Theorem trivial_copy_zero_bytes fuel ctx dst src m :
  trivial_copy (S fuel) ctx dst src 0 m = Some m.
Proof. apply trivial_copy_nothing. Qed.

(** [block::copy] of an empty range returns [result] at once and changes
    nothing, on either branch. *)
Theorem copy_empty_range cuda_arch is_trivial W fuel ctx first result m :
  0 < W -> 0 <= thread_index ctx ->
  copy cuda_arch is_trivial W (S fuel) ctx first first result m = Some (m, result).
Proof.
  intros HW Htid.
  assert (Hdiff : it_diff W first first = 0).
  { unfold it_diff. rewrite Z.sub_diag. apply Z.div_0_l. lia. }
  assert (Hres : it_add W result 0 = result) by (unfold it_add; lia).
  assert (Hfalse : copy_false_type W (S fuel) ctx first first result m = Some (m, result)).
  { unfold copy_false_type. rewrite Hdiff, Hres. cbn [copy_false_type_loop].
    destruct (Z.ltb_spec (it_add W first (thread_index ctx)) first) as [Hlt |]; [| reflexivity].
    unfold it_add in Hlt. nia. }
  assert (Htrue : copy_true_type W (S fuel) ctx first first result m = Some (m, result)).
  { unfold copy_true_type. rewrite Hdiff. change (usize 0) with 0.
    rewrite Z.mul_0_l. change (usize 0) with 0.
    rewrite trivial_copy_nothing, Hres. reflexivity. }
  unfold copy. destruct (cuda_arch <? 200); [exact Hfalse |].
  destruct is_trivial; assumption.
Qed.

Lemma copy_empty_range_witness :
  copy 200 true 4 (S 0) (Context 3 8 0) 40 40 80 (two_tone 50) = Some (two_tone 50, 80).
Proof. apply copy_empty_range; simpl; lia. Defined.

(** With a byte count of 2^32 or more and a misaligned address no lane of
    [trivial_copy] ever returns: the 32-bit counter of the byte-wise loop
    cannot reach the bound. *)
Theorem trivial_copy_bytewise_never_returns fuel ctx dst src n m :
  usize dst mod sizeof_uint2 <> 0 \/ usize src mod sizeof_uint2 <> 0 ->
  2 ^ 32 <= n ->
  trivial_copy fuel ctx dst src n m = None.
Proof.
  intros Hmis Hn. unfold trivial_copy.
  assert (E : negb (usize dst mod sizeof_uint2 =? 0) || negb (usize src mod sizeof_uint2 =? 0)
              = true).
  { apply orb_true_iff. destruct Hmis as [H | H]; [left | right];
      apply negb_true_iff, Z.eqb_neq; exact H. }
  rewrite E. apply strided_loop_diverges; [exact Hn |].
  unfold u32. apply Z.mod_pos_bound. lia.
Qed.

Lemma trivial_copy_bytewise_never_returns_witness :
  trivial_copy 1000 (Context 5 256 0) (2 ^ 40 + 1) 0 (2 ^ 32) (two_tone 7) = None.
Proof.
  apply trivial_copy_bytewise_never_returns.
  - left. vm_compute. discriminate.
  - lia.
Defined.

(** The generic branch of [block::copy], run by all lanes of a group in any
    order, returns and has copied the range, for every number of elements;
    every lane returns the end of the output. *)
Theorem copy_generic_copies_every_range cuda_arch is_trivial W fuel bdim lanes
    first result count mem0 :
  cuda_arch < 200 \/ is_trivial = false ->
  schedule_of bdim lanes -> (0 < bdim)%nat ->
  0 < W -> 0 <= count ->
  (Z.to_nat count < fuel)%nat ->
  disjoint_ranges result first (W * count) ->
  exists m',
    group_copy cuda_arch is_trivial W fuel bdim lanes first (it_add W first count) result mem0
      = Some (m', replicate (length lanes) (it_add W result count)) /\
    copied mem0 m' result first (W * count).
Proof. apply copy_generic_correct. Qed.

Lemma copy_generic_copies_every_range_witness :
  exists m',
    group_copy 130 true 4 10 3 (rev (seq 0 3)) 8 (it_add 4 8 7) 100 (two_tone 20)
      = Some (m', replicate (length (rev (seq 0 3))) (it_add 4 100 7)) /\
    copied (two_tone 20) m' 100 8 (4 * 7).
Proof.
  apply copy_generic_copies_every_range.
  - left. lia.
  - unfold schedule_of. symmetry. apply Permutation_rev.
  - lia.
  - lia.
  - lia.
  - lia.
  - unfold disjoint_ranges. lia.
Defined.

(** The raw-byte branch of [block::copy], run by all lanes of a group in
    any order, returns and has copied the range as long as the size of the
    range in bytes plus the group size does not exceed 2^32. *)
Theorem copy_trivial_copies_below_wrap cuda_arch W fuel bdim lanes first result count mem0 :
  200 <= cuda_arch ->
  schedule_of bdim lanes -> (0 < bdim)%nat ->
  0 < W -> 0 <= count -> W * count + Z.of_nat bdim <= 2 ^ 32 ->
  (Z.to_nat (W * count) < fuel)%nat ->
  disjoint_ranges result first (W * count) ->
  exists m',
    group_copy cuda_arch true W fuel bdim lanes first (it_add W first count) result mem0
      = Some (m', replicate (length lanes) (it_add W result count)) /\
    copied mem0 m' result first (W * count).
Proof. apply copy_trivial_correct. Qed.

Lemma copy_trivial_copies_below_wrap_witness :
  exists m',
    group_copy 200 true 4 40 3 (rev (seq 0 3)) 8 (it_add 4 8 7) 104 (two_tone 20)
      = Some (m', replicate (length (rev (seq 0 3))) (it_add 4 104 7)) /\
    copied (two_tone 20) m' 104 8 (4 * 7).
Proof.
  apply copy_trivial_copies_below_wrap.
  - lia.
  - unfold schedule_of. symmetry. apply Permutation_rev.
  - lia.
  - lia.
  - lia.
  - lia.
  - lia.
  - unfold disjoint_ranges. lia.
Defined.

(** Below the wrap of the 32-bit counters the branch [block::copy] takes
    does not matter: the generic and the raw-byte branch, run by groups of
    the same size in any two lane orders, leave the same memory and return
    the same iterators. *)
Theorem copy_branch_is_unobservable_below_wrap arch1 arch2 trivial1 W fuel1 fuel2 bdim
    lanes1 lanes2 first result count mem0 :
  arch1 < 200 \/ trivial1 = false -> 200 <= arch2 ->
  schedule_of bdim lanes1 -> schedule_of bdim lanes2 -> (0 < bdim)%nat ->
  0 < W -> 0 <= count -> W * count + Z.of_nat bdim <= 2 ^ 32 ->
  (Z.to_nat count < fuel1)%nat -> (Z.to_nat (W * count) < fuel2)%nat ->
  disjoint_ranges result first (W * count) ->
  exists m1 m2 rs,
    group_copy arch1 trivial1 W fuel1 bdim lanes1 first (it_add W first count) result mem0
      = Some (m1, rs) /\
    group_copy arch2 true W fuel2 bdim lanes2 first (it_add W first count) result mem0
      = Some (m2, rs) /\
    (forall a, m1 a = m2 a) /\
    Forall (fun r => r = it_add W result count) rs.
Proof. apply copy_branches_agree. Qed.

Lemma copy_branch_is_unobservable_below_wrap_witness :
  exists m1 m2 rs,
    group_copy 130 true 4 10 3 (seq 0 3) 8 (it_add 4 8 7) 104 (two_tone 20) = Some (m1, rs) /\
    group_copy 200 true 4 40 3 (rev (seq 0 3)) 8 (it_add 4 8 7) 104 (two_tone 20)
      = Some (m2, rs) /\
    (forall a, m1 a = m2 a) /\
    Forall (fun r => r = it_add 4 104 7) rs.
Proof.
  apply copy_branch_is_unobservable_below_wrap.
  - left. lia.
  - lia.
  - unfold schedule_of. reflexivity.
  - unfold schedule_of. symmetry. apply Permutation_rev.
  - lia.
  - lia.
  - lia.
  - lia.
  - lia.
  - lia.
  - unfold disjoint_ranges. lia.
Defined.

End BlockCopyEdges.

(** ** Stream compaction *)

Section CountFurther.
Import CopyIfSpec.

Variable flag : Z -> Z.

Lemma count_upper lo hi : lo <= hi -> count flag lo hi <= hi - lo.
Proof.
  intros H. unfold count, selected.
  pose proof (length_filter (fun i => flag i <> 0) (seqZ lo (hi - lo))) as L.
  rewrite length_seqZ in L. lia.
Qed.

Lemma selected_lookup_from lo hi j i :
  selected flag lo hi !! j = Some i ->
  lo <= i < hi /\ flag i <> 0 /\ count flag lo i = Z.of_nat j.
Proof.
  intros Hj.
  assert (Hin : i ∈ selected flag lo hi) by (apply list_elem_of_lookup; eauto).
  apply elem_of_selected in Hin as [Hf Hr].
  split; [exact Hr |]. split; [exact Hf |].
  assert (Hat : selected flag lo hi !! length (selected flag lo i) = Some i).
  { rewrite (selected_split flag lo i hi) by lia. rewrite (selected_split flag i (i + 1) hi) by lia.
    rewrite selected_one. destruct (decide (flag i <> 0)); [| tauto].
    rewrite lookup_app_r by lia. rewrite Nat.sub_diag. reflexivity. }
  pose proof (NoDup_lookup _ _ _ _ (NoDup_selected flag lo hi) Hj Hat) as E.
  unfold count. lia.
Qed.

Lemma selected_none lo hi :
  (forall i, lo <= i < hi -> flag i = 0) -> selected flag lo hi = [].
Proof.
  intros H. destruct (selected flag lo hi) as [| i l] eqn:E; [reflexivity |].
  assert (Hin : i ∈ selected flag lo hi) by (rewrite E; left).
  apply elem_of_selected in Hin as [Hf Hr]. destruct (Hf (H i Hr)).
Qed.

Lemma filter_all {A} (P : A -> Prop) `{!forall x, Decision (P x)} (l : list A) :
  (forall x, x ∈ l -> P x) -> filter P l = l.
Proof.
  induction l as [| x l IH]; intros Hall; [reflexivity |].
  rewrite filter_cons_True by (apply Hall; left). f_equal.
  apply IH. intros y Hy. apply Hall. right. exact Hy.
Qed.

Lemma selected_all lo hi :
  (forall i, lo <= i < hi -> flag i <> 0) -> selected flag lo hi = seqZ lo (hi - lo).
Proof.
  intros H. unfold selected. apply filter_all. intros i Hi. apply elem_of_seqZ in Hi. apply H. lia.
Qed.

Lemma filter_agree {A} (P Q : A -> Prop) `{!forall x, Decision (P x), !forall x, Decision (Q x)}
    (l : list A) :
  (forall x, x ∈ l -> (P x <-> Q x)) -> filter P l = filter Q l.
Proof.
  induction l as [| x l IH]; intros Hall; [reflexivity |].
  assert (Hl : filter P l = filter Q l).
  { apply IH. intros y Hy. apply Hall. right. exact Hy. }
  assert (Hx : P x <-> Q x) by (apply Hall; left).
  destruct (decide (P x)) as [HP | HP].
  - rewrite (filter_cons_True P) by exact HP.
    rewrite (filter_cons_True Q) by (apply Hx; exact HP). rewrite Hl. reflexivity.
  - rewrite (filter_cons_False P) by exact HP.
    rewrite (filter_cons_False Q) by (intros HQ; apply HP, Hx, HQ). exact Hl.
Qed.

End CountFurther.

Section CopyIfFurther.
Import CopyIf CopyIfSpec.

(** What a scattering of the selected positions of an interval leaves in
    the output. *)
Lemma scattered_interval {T} (flag : Z -> Z) (elem : Z -> T) output lo hi m m' :
  0 <= lo <= hi ->
  scattered flag elem output (fun i => lo <= i < hi) m m' ->
  holds_from m' (output + count flag 0 lo) (map elem (selected flag lo hi)) /\
  unchanged_outside m m' (output + count flag 0 lo) (output + count flag 0 hi).
Proof.
  intros Hlo [Hw Hf]. split.
  - intros j x Hj. change (map elem (selected flag lo hi)) with (elem <$> selected flag lo hi) in Hj.
    rewrite list_lookup_fmap in Hj.
    destruct (selected flag lo hi !! j) as [i |] eqn:Hi; [| discriminate].
    injection Hj as <-. apply selected_lookup_from in Hi as (Hr & Fi & Hc).
    rewrite <- Hc. replace (output + count flag 0 lo + count flag lo i)
      with (output + count flag 0 i) by (rewrite (count_split flag 0 lo i) by lia; lia).
    apply Hw; assumption.
  - intros p Hp. apply Hf. intros i Hi Fi E. apply Hp.
    pose proof (count_mono flag 0 lo i ltac:(lia)).
    pose proof (count_lt flag i hi ltac:(lia) Fi). lia.
Qed.

(** A group whose interval is empty leaves the output memory as it is. *)
Theorem closure_of_empty_interval {T} (CTA_SIZE : nat) (input_mem : Z -> T)
    (stencil_mem : Z -> Z) (input stencil : Z) (offsets : list Z) (decomp : decomposition)
    (output : Z) (fuel : nat) (sched : schedule) (bidx : nat) (m : out_memory) :
  (0 < CTA_SIZE)%nat ->
  range_end (decomp_at decomp bidx) <= range_begin (decomp_at decomp bidx) ->
  closure CTA_SIZE input_mem stencil_mem input stencil offsets decomp output
    (S fuel) sched bidx m = Some m.
Proof.
  intros Hpos Hempty. unfold closure. cbn [full_blocks base].
  destruct (Z.leb_spec (range_begin (decomp_at decomp bidx) + Z.of_nat CTA_SIZE)
              (range_end (decomp_at decomp bidx))); [lia |].
  cbn [mbind option_bind]. unfold partial_block. cbn [base].
  destruct (Z.ltb_spec (range_begin (decomp_at decomp bidx))
              (range_end (decomp_at decomp bidx))); [lia | reflexivity].
Qed.

Lemma closure_of_empty_interval_witness :
  closure 4 example_input example_stencil 0 0 [2; 2]
    {| decomp_size := 2;
       decomp_at := fun g => if (g =? 0)%nat then IndexRange 0 3 else IndexRange 3 3 |}
    100 (S 0) (forwards 2 4) 1 blank = Some blank.
Proof. apply closure_of_empty_interval; [lia | simpl; lia]. Defined.

(** In the launch of [copy_if], group [g] returns with the input elements
    of its own interval whose stencil element satisfies the predicate
    written, in order, from [output] plus the number of such positions
    before the interval, and changes nothing outside the stretch of the
    output that ends where the next group starts. *)
Theorem group_writes_its_own_stretch {T U} (input_mem : Z -> T) (stencil_mem : Z -> U)
    (pred : U -> bool) (first stencil output n : Z) (d : decomposition)
    (fuel : nat) (sched : schedule) (g : nat) (m : out_memory) :
  valid_decomposition n d -> (g < decomp_size d)%nat ->
  lane_order sched g ≡ₚ seq 0 ThreadsPerBlock ->
  length (shared_init sched g) = ThreadsPerBlock ->
  (Z.to_nat n < fuel)%nat ->
  let predicate_stencil := fun p => predicate_to_integral pred (stencil_mem p) in
  let flag := fun i => predicate_stencil (stencil + i) in
  let offsets := inclusive_scan Z.add (reduce_intervals flag d) in
  let lo := range_begin (decomp_at d g) in
  let hi := range_end (decomp_at d g) in
  exists m',
    closure ThreadsPerBlock input_mem predicate_stencil first stencil offsets d output
      fuel sched g m = Some m' /\
    holds_from m' (output + Z.of_nat (length (kept pred stencil_mem stencil lo)))
      (map (fun i => input_mem (first + i)) (kept_in pred stencil_mem stencil lo hi)) /\
    unchanged_outside m m'
      (output + Z.of_nat (length (kept pred stencil_mem stencil lo)))
      (output + Z.of_nat (length (kept pred stencil_mem stencil hi))).
Proof.
  intros Hd Hg Hlanes Hshared Hfuel predicate_stencil flag offsets lo hi.
  assert (Hbit : forall p, predicate_stencil p = 0 \/ predicate_stencil p = 1)
    by apply predicate_stencil_bit.
  assert (Hfbit : forall i, flag i = 0 \/ flag i = 1) by (intros i; apply Hbit).
  pose proof (decomp_begin_bounds n d Hd g Hg) as Hb.
  pose proof (decomp_end_le n d Hd g Hg) as He.
  assert (Hf : (Z.to_nat (range_end (decomp_at d g) - range_begin (decomp_at d g))
                < fuel)%nat) by lia.
  assert (Hpos : (0 < ThreadsPerBlock)%nat) by (unfold ThreadsPerBlock; lia).
  assert (Hu32 : Z.of_nat ThreadsPerBlock < 2 ^ 32) by reflexivity.
  destruct (closure_spec ThreadsPerBlock input_mem predicate_stencil first stencil output
              Hbit Hpos Hu32 offsets d fuel sched g m Hlanes Hshared Hb
              (block_output_spec flag n d Hfbit Hd output g Hg) Hf)
    as (m' & Hrun & Hsc).
  exists m'. split; [exact Hrun |].
  pose proof (scattered_interval flag (fun i => input_mem (first + i)) output lo hi m m' Hb Hsc)
    as Hres.
  unfold flag, predicate_stencil in Hres.
  rewrite selected_by_pred, !count_by_pred, !kept_in_from_0 in Hres. exact Hres.
Qed.

Lemma group_writes_its_own_stretch_witness :
  let predicate_stencil := fun p => predicate_to_integral nonzero (example_stencil p) in
  let flag := fun i => predicate_stencil (0 + i) in
  let offsets := inclusive_scan Z.add (reduce_intervals flag (chunks_of 3 7)) in
  let lo := range_begin (decomp_at (chunks_of 3 7) 1) in
  let hi := range_end (decomp_at (chunks_of 3 7) 1) in
  exists m',
    closure ThreadsPerBlock example_input predicate_stencil 0 0 offsets (chunks_of 3 7) 100
      8 (backwards 3 ThreadsPerBlock 5) 1 blank = Some m' /\
    holds_from m' (100 + Z.of_nat (length (kept nonzero example_stencil 0 lo)))
      (map (fun i => example_input (0 + i)) (kept_in nonzero example_stencil 0 lo hi)) /\
    unchanged_outside blank m'
      (100 + Z.of_nat (length (kept nonzero example_stencil 0 lo)))
      (100 + Z.of_nat (length (kept nonzero example_stencil 0 hi))).
Proof.
  apply (group_writes_its_own_stretch example_input example_stencil nonzero 0 0 100 7
           (chunks_of 3 7) 8 (backwards 3 ThreadsPerBlock 5) 1 blank).
  - apply chunks_of_valid; lia.
  - vm_compute. lia.
  - symmetry. apply Permutation_rev.
  - apply length_replicate.
  - lia.
Defined.

End CopyIfFurther.

Section CopyIfWhole.
Import CopyIf CopyIfSpec.
Context {T U : Type}.
Variable default_decomposition : Z -> decomposition.
Variable input_mem : Z -> T.
Variable stencil_mem : Z -> U.
Variables first last stencil output : Z.
Variable pred : U -> bool.

Local Abbreviation flag := (fun i => predicate_to_integral pred (stencil_mem (stencil + i))).
Local Abbreviation elem := (fun i => input_mem (first + i)).

Lemma copy_if_run_stated fuel sched m :
  first <= last ->
  (first < last ->
   valid_decomposition (last - first) (default_decomposition (last - first))) ->
  valid_schedule (decomp_size (default_decomposition (last - first))) ThreadsPerBlock sched ->
  (Z.to_nat (last - first) < fuel)%nat ->
  exists m',
    copy_if default_decomposition fuel sched input_mem stencil_mem
      first last stencil output pred m = Some (m', output + count flag 0 (last - first)) /\
    compacted_into flag elem output (last - first) m m'.
Proof.
  exact (copy_if_run default_decomposition input_mem stencil_mem first last stencil output
           pred fuel sched m).
Qed.

End CopyIfWhole.

Section CopyIfEdges.
Import CopyIf CopyIfSpec.

(** When no stencil element of the range satisfies the predicate,
    [copy_if] returns [output] and the output memory is as it was. *)
Theorem copy_if_keeps_nothing {T U} (default_decomposition : Z -> decomposition)
    (fuel : nat) (sched : schedule) (input_mem : Z -> T) (stencil_mem : Z -> U)
    (first last stencil output : Z) (pred : U -> bool) (m : out_memory) :
  first <= last ->
  (first < last ->
   valid_decomposition (last - first) (default_decomposition (last - first))) ->
  valid_schedule (decomp_size (default_decomposition (last - first))) ThreadsPerBlock sched ->
  (Z.to_nat (last - first) < fuel)%nat ->
  (forall i, 0 <= i < last - first -> pred (stencil_mem (stencil + i)) = false) ->
  exists m',
    copy_if default_decomposition fuel sched input_mem stencil_mem
      first last stencil output pred m = Some (m', output) /\
    (forall p, m' p = m p).
Proof.
  intros Hle Hd Hs Hfuel Hnone.
  destruct (copy_if_run_stated default_decomposition input_mem stencil_mem first last stencil
              output pred fuel sched m Hle Hd Hs Hfuel) as (m' & Hrun & _ & Hf).
  assert (Hc : count (fun i => predicate_to_integral pred (stencil_mem (stencil + i)))
                 0 (last - first) = 0).
  { unfold count. rewrite selected_none; [reflexivity |].
    intros i Hi. unfold predicate_to_integral. rewrite Hnone by exact Hi. reflexivity. }
  rewrite Hc in Hrun, Hf. rewrite Z.add_0_r in Hrun, Hf.
  exists m'. split; [exact Hrun |]. intros p. apply Hf. lia.
Qed.

Lemma copy_if_keeps_nothing_witness :
  exists m',
    copy_if (chunks_of 3) 8 (backwards 3 ThreadsPerBlock 5) example_input example_stencil
      0 7 0 100 (fun x => x =? 9) blank = Some (m', 100) /\
    (forall p, m' p = blank p).
Proof.
  apply copy_if_keeps_nothing.
  - lia.
  - intros _. apply chunks_of_valid; lia.
  - apply backwards_valid.
  - lia.
  - intros i Hi.
    assert (i = 0 \/ i = 1 \/ i = 2 \/ i = 3 \/ i = 4 \/ i = 5 \/ i = 6) as Hcases by lia.
    destruct Hcases as [-> | [-> | [-> | [-> | [-> | [-> | ->]]]]]]; reflexivity.
Defined.

(** When every stencil element of the range satisfies the predicate,
    [copy_if] copies the whole input range to [output] in order, returns
    [output + (last - first)] and changes nothing else. *)
Theorem copy_if_keeps_everything {T U} (default_decomposition : Z -> decomposition)
    (fuel : nat) (sched : schedule) (input_mem : Z -> T) (stencil_mem : Z -> U)
    (first last stencil output : Z) (pred : U -> bool) (m : out_memory) :
  first <= last ->
  (first < last ->
   valid_decomposition (last - first) (default_decomposition (last - first))) ->
  valid_schedule (decomp_size (default_decomposition (last - first))) ThreadsPerBlock sched ->
  (Z.to_nat (last - first) < fuel)%nat ->
  (forall i, 0 <= i < last - first -> pred (stencil_mem (stencil + i)) = true) ->
  exists m',
    copy_if default_decomposition fuel sched input_mem stencil_mem
      first last stencil output pred m = Some (m', output + (last - first)) /\
    (forall i, 0 <= i < last - first -> m' (output + i) = input_mem (first + i)) /\
    unchanged_outside m m' output (output + (last - first)).
Proof.
  intros Hle Hd Hs Hfuel Hall.
  destruct (copy_if_run_stated default_decomposition input_mem stencil_mem first last stencil
              output pred fuel sched m Hle Hd Hs Hfuel) as (m' & Hrun & Hw & Hf).
  assert (Hsel : selected (fun i => predicate_to_integral pred (stencil_mem (stencil + i)))
                   0 (last - first) = seqZ 0 (last - first)).
  { rewrite selected_all; [rewrite Z.sub_0_r; reflexivity |].
    intros i Hi. unfold predicate_to_integral. rewrite Hall by exact Hi. lia. }
  assert (Hc : count (fun i => predicate_to_integral pred (stencil_mem (stencil + i)))
                 0 (last - first) = last - first).
  { unfold count. rewrite Hsel, length_seqZ. lia. }
  rewrite Hc in Hrun, Hf.
  exists m'. split; [exact Hrun |]. split; [| exact Hf].
  intros i Hi. replace (output + i) with (output + Z.of_nat (Z.to_nat i)) by lia.
  apply Hw. unfold compacted. rewrite Hsel.
  change (map ?f (seqZ 0 (last - first))) with (f <$> seqZ 0 (last - first)).
  rewrite list_lookup_fmap, lookup_seqZ_lt by lia. cbn [fmap option_fmap option_map].
  do 3 f_equal. lia.
Qed.

Lemma copy_if_keeps_everything_witness :
  exists m',
    copy_if (chunks_of 3) 8 (backwards 3 ThreadsPerBlock 5) example_input example_stencil
      0 7 0 100 (fun x => x <? 2) blank = Some (m', 100 + (7 - 0)) /\
    (forall i, 0 <= i < 7 - 0 -> m' (100 + i) = example_input (0 + i)) /\
    unchanged_outside blank m' 100 (100 + (7 - 0)).
Proof.
  apply copy_if_keeps_everything.
  - lia.
  - intros _. apply chunks_of_valid; lia.
  - apply backwards_valid.
  - lia.
  - intros i Hi.
    assert (i = 0 \/ i = 1 \/ i = 2 \/ i = 3 \/ i = 4 \/ i = 5 \/ i = 6) as Hcases by lia.
    destruct Hcases as [-> | [-> | [-> | [-> | [-> | [-> | ->]]]]]]; reflexivity.
Defined.

(** [copy_if] never writes past the length of the input: the iterator it
    returns lies between [output] and [output + (last - first)], and the
    output memory is unchanged outside these [last - first] positions. *)
Theorem copy_if_stays_within_input_length {T U} (default_decomposition : Z -> decomposition)
    (fuel : nat) (sched : schedule) (input_mem : Z -> T) (stencil_mem : Z -> U)
    (first last stencil output : Z) (pred : U -> bool) (m : out_memory) :
  first <= last ->
  (first < last ->
   valid_decomposition (last - first) (default_decomposition (last - first))) ->
  valid_schedule (decomp_size (default_decomposition (last - first))) ThreadsPerBlock sched ->
  (Z.to_nat (last - first) < fuel)%nat ->
  exists m' r,
    copy_if default_decomposition fuel sched input_mem stencil_mem
      first last stencil output pred m = Some (m', r) /\
    output <= r <= output + (last - first) /\
    unchanged_outside m m' output (output + (last - first)).
Proof.
  intros Hle Hd Hs Hfuel.
  destruct (copy_if_run_stated default_decomposition input_mem stencil_mem first last stencil
              output pred fuel sched m Hle Hd Hs Hfuel) as (m' & Hrun & _ & Hf).
  pose proof (count_nonneg (fun i => predicate_to_integral pred (stencil_mem (stencil + i)))
                0 (last - first)) as H0.
  pose proof (count_upper (fun i => predicate_to_integral pred (stencil_mem (stencil + i)))
                0 (last - first) ltac:(lia)) as H1.
  exists m'. eexists. split; [exact Hrun |]. split; [lia |].
  intros p Hp. apply Hf. lia.
Qed.

Lemma copy_if_stays_within_input_length_witness :
  exists m' r,
    copy_if (chunks_of 3) 8 (backwards 3 ThreadsPerBlock 5) example_input example_stencil
      0 7 0 100 nonzero blank = Some (m', r) /\
    100 <= r <= 100 + (7 - 0) /\
    unchanged_outside blank m' 100 (100 + (7 - 0)).
Proof.
  apply copy_if_stays_within_input_length.
  - lia.
  - intros _. apply chunks_of_valid; lia.
  - apply backwards_valid.
  - lia.
Defined.

(** The result of [copy_if] depends on the input and on the stencil only
    inside the range: two inputs and two stencils that agree on the
    [last - first] positions of the range give the same iterator and the
    same output memory. *)
Theorem copy_if_depends_on_the_range_only {T U} (default_decomposition : Z -> decomposition)
    (fuel1 fuel2 : nat) (sched1 sched2 : schedule)
    (input_mem1 input_mem2 : Z -> T) (stencil_mem1 stencil_mem2 : Z -> U)
    (first last stencil output : Z) (pred : U -> bool) (m : out_memory) :
  first <= last ->
  (first < last ->
   valid_decomposition (last - first) (default_decomposition (last - first))) ->
  valid_schedule (decomp_size (default_decomposition (last - first))) ThreadsPerBlock sched1 ->
  valid_schedule (decomp_size (default_decomposition (last - first))) ThreadsPerBlock sched2 ->
  (Z.to_nat (last - first) < fuel1)%nat ->
  (Z.to_nat (last - first) < fuel2)%nat ->
  (forall i, 0 <= i < last - first -> input_mem1 (first + i) = input_mem2 (first + i)) ->
  (forall i, 0 <= i < last - first -> stencil_mem1 (stencil + i) = stencil_mem2 (stencil + i)) ->
  exists m1 m2 r,
    copy_if default_decomposition fuel1 sched1 input_mem1 stencil_mem1
      first last stencil output pred m = Some (m1, r) /\
    copy_if default_decomposition fuel2 sched2 input_mem2 stencil_mem2
      first last stencil output pred m = Some (m2, r) /\
    (forall p, m1 p = m2 p).
Proof.
  intros Hle Hd Hs1 Hs2 Hf1 Hf2 Hin Hst.
  destruct (copy_if_run_stated default_decomposition input_mem1 stencil_mem1 first last stencil
              output pred fuel1 sched1 m Hle Hd Hs1 Hf1) as (m1 & Hrun1 & Hc1).
  destruct (copy_if_run_stated default_decomposition input_mem2 stencil_mem2 first last stencil
              output pred fuel2 sched2 m Hle Hd Hs2 Hf2) as (m2 & Hrun2 & Hc2).
  set (flag1 := fun i => predicate_to_integral pred (stencil_mem1 (stencil + i))) in *.
  set (flag2 := fun i => predicate_to_integral pred (stencil_mem2 (stencil + i))) in *.
  assert (Hsel : selected flag1 0 (last - first) = selected flag2 0 (last - first)).
  { unfold selected. apply filter_agree. intros i Hi. apply elem_of_seqZ in Hi.
    unfold flag1, flag2. rewrite Hst by lia. reflexivity. }
  assert (Hcount : count flag1 0 (last - first) = count flag2 0 (last - first)).
  { unfold count. rewrite Hsel. reflexivity. }
  assert (Hcomp : compacted flag1 (fun i => input_mem1 (first + i)) (last - first)
                  = compacted flag2 (fun i => input_mem2 (first + i)) (last - first)).
  { unfold compacted. rewrite Hsel. apply map_ext_in. intros i Hi.
    apply list_elem_of_In, elem_of_selected in Hi as [_ Hr]. apply Hin. lia. }
  assert (Hc1' : compacted_into flag2 (fun i => input_mem2 (first + i)) output
                   (last - first) m m1).
  { destruct Hc1 as [Hw Hf]. split.
    - intros j x Hj. apply Hw. rewrite Hcomp. exact Hj.
    - intros p Hp. apply Hf. rewrite Hcount. exact Hp. }
  exists m1, m2. eexists. split; [exact Hrun1 |]. split.
  - rewrite Hcount. exact Hrun2.
  - intros p. exact (compacted_into_unique _ _ _ _ _ _ _ p Hc1' Hc2).
Qed.

Lemma copy_if_depends_on_the_range_only_witness :
  exists m1 m2 r,
    copy_if (chunks_of 3) 8 (forwards 3 ThreadsPerBlock) example_input example_stencil
      0 7 0 100 nonzero blank = Some (m1, r) /\
    copy_if (chunks_of 3) 9 (backwards 3 ThreadsPerBlock 5)
      (fun p => if p <? 7 then example_input p else 77)
      (fun p => if p <? 7 then example_stencil p else 0)
      0 7 0 100 nonzero blank = Some (m2, r) /\
    (forall p, m1 p = m2 p).
Proof.
  apply copy_if_depends_on_the_range_only.
  - lia.
  - intros _. apply chunks_of_valid; lia.
  - apply forwards_valid.
  - apply backwards_valid.
  - lia.
  - lia.
  - intros i Hi. destruct (Z.ltb_spec (0 + i) 7); [reflexivity | lia].
  - intros i Hi. destruct (Z.ltb_spec (0 + i) 7); [reflexivity | lia].
Defined.

End CopyIfEdges.
